(** * train_classifier.py: bounding-box sampling, augmentation and label encoding

    A shallow embedding of the pure core of [train_classifier.py]:
    [filter_BBs], [BB_augment], [shuffle_in_unison], [string_to_onehot],
    the two [__getitem__] sample pipelines and [genBalancedCharDataset].

    Conventions.
    - Coordinates and pixel values are numpy floats in the source; they are
      modelled as exact rationals ([Q]), with comparisons through
      [Qle_bool].
    - Python exceptions are modelled with a small error type; a function that
      can raise returns a sum.
    - The process-wide numpy random stream is an explicit state, passed in
      and returned. *)

From Stdlib Require Import ZArith QArith Qround Lqa Ascii String.
From stdpp Require Import base option list gmap strings sorting.

Local Open Scope string_scope.
Local Open Scope list_scope.
Local Open Scope nat_scope.

(** ** Python values used as labels *)

(** A ground-truth label is a Python object: a [str], [None], or (in the
    benchmark source, where pandas parses the column) a number. *)
Inductive pyval : Type :=
  | PyNone
  | PyStr (s : string)
  | PyInt (z : Z).

Global Instance pyval_eq_dec : EqDecision pyval.
Proof. solve_decision. Defined.

Definition pyval_encode (v : pyval) : option (string + Z) :=
  match v with
  | PyNone => None
  | PyStr s => Some (inl s)
  | PyInt z => Some (inr z)
  end.

Definition pyval_decode (o : option (string + Z)) : pyval :=
  match o with
  | None => PyNone
  | Some (inl s) => PyStr s
  | Some (inr z) => PyInt z
  end.

Global Instance pyval_countable : Countable pyval.
Proof.
  apply (inj_countable' pyval_encode pyval_decode).
  by intros [].
Defined.

(** Python truthiness: [if gts[i]:]. *)
Definition truthy (v : pyval) : bool :=
  match v with
  | PyNone => false
  | PyStr s => negb (String.eqb s "")
  | PyInt z => negb (Z.eqb z 0)
  end.

(** [isinstance(char, str)] *)
Definition is_str (v : pyval) : bool :=
  match v with PyStr _ => true | _ => false end.

(** Exceptions raised by the modelled code. *)
Inductive exn : Type :=
  | AssertionError
  | IndexError
  | KeyError
  | TypeError
  | ValueError
  | cv2_error.

Definition result (A : Type) : Type := (exn + A)%type.
Definition ok {A} (a : A) : result A := inr a.
Definition raise {A} (e : exn) : result A := inl e.

Definition rbind {A B} (r : result A) (k : A → result B) : result B :=
  match r with
  | inl e => inl e
  | inr a => k a
  end.

(** [l[i]] for [0 <= i]: [IndexError] out of range. *)
Definition getitem {A} (l : list A) (i : nat) : result A :=
  match l !! i with
  | Some x => ok x
  | None => raise IndexError
  end.

(** [l[:k]] for a Python integer [k]: a negative [k] counts from the end. *)
Definition slice_to {A} (l : list A) (k : Z) : list A :=
  if (0 <=? k)%Z then take (Z.to_nat k) l
  else take (Z.to_nat (Z.of_nat (length l) + k)) l.

(** [l[:k]] where [k] may be [None] ([list[:None] == list]). *)
Definition slice_to_opt {A} (l : list A) (k : option Z) : list A :=
  match k with
  | None => l
  | Some k => slice_to l k
  end.

(** ** Geometry *)

Definition point : Type := (Q * Q)%type.

(** One bounding box: a 4 x 2 array of corner coordinates. *)
Record Quad : Type := mkQuad { q0 : point; q1 : point; q2 : point; q3 : point }.

Definition quad_points (BB : Quad) : list point := [q0 BB; q1 BB; q2 BB; q3 BB].

Definition Qminb (a b : Q) : Q := if Qle_bool a b then a else b.
Definition Qmaxb (a b : Q) : Q := if Qle_bool a b then b else a.

Definition min4 (a b c d : Q) : Q := Qminb (Qminb (Qminb a b) c) d.
Definition max4 (a b c d : Q) : Q := Qmaxb (Qmaxb (Qmaxb a b) c) d.

(** Modelled from the spec: [image_proc.get_containing_rect] is not part of
    the sources at hand.  Section 4.1: the axis-aligned rectangle, as four
    corner points (tl, tr, br, bl), whose extent is [min x, max x] x
    [min y, max y] of the quadrilateral. *)
Definition get_containing_rect (BB : Quad) : point * point * point * point :=
  let xmin := min4 (q0 BB).1 (q1 BB).1 (q2 BB).1 (q3 BB).1 in
  let xmax := max4 (q0 BB).1 (q1 BB).1 (q2 BB).1 (q3 BB).1 in
  let ymin := min4 (q0 BB).2 (q1 BB).2 (q2 BB).2 (q3 BB).2 in
  let ymax := max4 (q0 BB).2 (q1 BB).2 (q2 BB).2 (q3 BB).2 in
  ((xmin, ymin), (xmax, ymin), (xmax, ymax), (xmin, ymax)).

(** First point of [l] minimising, resp. maximising, [x + y] (numpy's
    [argmin] and [argmax] return the first extremum). *)
Fixpoint argmin_sum (best : point) (l : list point) : point :=
  match l with
  | [] => best
  | p :: l' =>
      if Qle_bool (best.1 + best.2) (p.1 + p.2) then argmin_sum best l'
      else argmin_sum p l'
  end.

Fixpoint argmax_sum (best : point) (l : list point) : point :=
  match l with
  | [] => best
  | p :: l' =>
      if Qle_bool (p.1 + p.2) (best.1 + best.2) then argmax_sum best l'
      else argmax_sum p l'
  end.

(** Modelled from the spec: [image_proc.get_width_height] is not part of the
    sources at hand.  Section 4.1: the difference between the ordered
    quadrilateral's bottom-right and top-left points, where ordering takes
    the point of minimum x+y as top-left and the point of maximum x+y as
    bottom-right. *)
Definition get_width_height (BB : Quad) : Q * Q :=
  let tl := argmin_sum (q0 BB) [q1 BB; q2 BB; q3 BB] in
  let br := argmax_sum (q0 BB) [q1 BB; q2 BB; q3 BB] in
  (br.1 - tl.1, br.2 - tl.2)%Q.

(** ** filter_BBs *)

(** The test of one loop iteration: [true] when the box survives. The two
    rejecting branches are kept apart, as in the source. *)
Definition keep_BB (img_w img_h : Q) (BB : Quad) : bool :=
  let '(tl, tr, br, bl) := get_containing_rect BB in
  let w := (br.1 - tl.1)%Q in
  let h := (br.2 - tl.2)%Q in
  (* if (br[0] >= img_w) or (br[1] >= img_h) *)
  if Qle_bool img_w br.1 || Qle_bool img_h br.2 then false
  (* elif (w <= 1) or (h <= 1) *)
  else if Qle_bool w 1 || Qle_bool h 1 then false
  else true.

(** The [for i, BB in enumerate(BBs)] loop. [skip_mask] and [correct_gts]
    are the accumulated mask prefix and label list; [gts[i]] raises
    [IndexError] when the label list is too short. *)
Fixpoint filter_BBs_loop (img_w img_h : Q) (gts : list pyval) (i : nat)
    (BBs : list Quad) (skip_mask : list bool) (correct_gts : list pyval)
    : result (list bool * list pyval) :=
  match BBs with
  | [] => ok (skip_mask, correct_gts)
  | BB :: rest =>
      if keep_BB img_w img_h BB then
        rbind (getitem gts i) (λ g,
          filter_BBs_loop img_w img_h gts (S i) rest
            (skip_mask ++ [true]) (correct_gts ++ [g]))
      else
        filter_BBs_loop img_w img_h gts (S i) rest
          (skip_mask ++ [false]) correct_gts
  end.

(** [BBs[skip_mask]]: boolean-mask indexing of the first axis. *)
Fixpoint mask_select {A} (l : list A) (mask : list bool) : list A :=
  match l, mask with
  | x :: l', b :: mask' =>
      if b then x :: mask_select l' mask' else mask_select l' mask'
  | _, _ => []
  end.

Definition filter_BBs (BBs : list Quad) (gts : list pyval) (img_wh : Q * Q)
    : result (list Quad * list pyval) :=
  let '(img_w, img_h) := img_wh in
  rbind (filter_BBs_loop img_w img_h gts 0 BBs [] []) (λ '(skip_mask, correct_gts),
    ok (mask_select BBs skip_mask, correct_gts)).

(** The pairs that survive, computed on the zipped input. *)
Definition kept_pairs (img_wh : Q * Q) (BBs : list Quad) (gts : list pyval)
    : list (Quad * pyval) :=
  filter (λ p, keep_BB img_wh.1 img_wh.2 p.1 = true) (zip BBs gts).



(** ** The numpy random stream *)

(** The legacy global generator, seen through the two primitives the code
    reaches: [random_interval s m] draws an integer in [0, m] (used by
    [np.random.shuffle]) and [random_sample s] draws a float in [0, 1)
    (used by [np.random.uniform]).  Both return the advanced state. *)
Class RandomState (St : Type) : Type := {
  random_interval : St → nat → nat * St;
  random_sample : St → Q * St;
  random_interval_le : ∀ s m, ((random_interval s m).1 ≤ m)%nat;
  random_sample_range : ∀ s,
    (0 <= (random_sample s).1)%Q ∧ ((random_sample s).1 < 1)%Q
}.

(** A generator that replays a tape of raw draws; every finite behaviour
    of a real generator is the behaviour of some tape.  An integer draw is
    reduced modulo [m + 1]; a float draw is [x mod 1024 / 1024]. *)
Definition tape_interval (s : list nat) (m : nat) : nat * list nat :=
  match s with
  | [] => (0, [])
  | x :: s' => (x `mod` (S m), s')
  end.

Definition tape_sample (s : list nat) : Q * list nat :=
  match s with
  | [] => (0%Q, [])
  | x :: s' => (inject_Z (Z.of_nat (x `mod` 1024)) / 1024, s')%Q
  end.

Global Program Instance tape_random : RandomState (list nat) := {
  random_interval := tape_interval;
  random_sample := tape_sample
}.
Next Obligation.
  intros [|x s] m; simpl; [lia|].
  pose proof (Nat.mod_upper_bound x (S m)). lia.
Qed.
Next Obligation.
  intros [|x s]; simpl; [by split|].
  pose proof (Nat.mod_upper_bound x 1024 ltac:(lia)) as Hlt.
  unfold Qle, Qlt, Qdiv, Qmult, Qinv, inject_Z; simpl.
  split; lia.
Qed.

Section WithRandomState.
Context {St : Type} `{!RandomState St}.

(** [x[i], x[j] = x[j], x[i]] *)
Definition swap {A} (i j : nat) (x : list A) : list A :=
  match x !! i, x !! j with
  | Some xi, Some xj => <[j:=xi]> (<[i:=xj]> x)
  | _, _ => x
  end.

(** [np.random.shuffle], as the numpy library implements it for lists and
    for arrays alike: [for i in reversed(range(1, n))], draw
    [j = random_interval(i)] and swap positions [i] and [j].  The draws,
    and so the permutation, depend on the state and on [n] only; as
    [j <= i < n], no swap indexes out of range. *)
Fixpoint shuffle_loop {A} (i : nat) (st : St) (x : list A) : list A * St :=
  match i with
  | 0 => (x, st)
  | S i' =>
      let '(j, st') := random_interval st i in
      shuffle_loop i' st' (swap i j x)
  end.

Definition np_shuffle {A} (st : St) (x : list A) : list A * St :=
  shuffle_loop (length x - 1) st x.

(** [shuffle_in_unison(a, b)]: both arguments are shuffled in place; the
    model returns their new contents and the final state. *)
Definition shuffle_in_unison {A B} (a : list A) (b : list B) (st : St)
    : list A * list B * St :=
  let rng_state := st in                      (* np.random.get_state() *)
  let '(a', _) := np_shuffle st a in          (* np.random.shuffle(a) *)
  let '(b', st') := np_shuffle rng_state b in (* set_state; shuffle(b) *)
  (a', b', st').

(** [np.random.uniform(low, high)]: [low + (high - low) * random_sample()]. *)
Definition uniform (low high : Q) (st : St) : Q * St :=
  let '(u, st') := random_sample st in
  ((low + (high - low) * u)%Q, st').

(** [np.random.uniform(low, high, size=4)] *)
Definition uniform4 (low high : Q) (st : St) : (Q * Q * Q * Q) * St :=
  let '(n0, st) := uniform low high st in
  let '(n1, st) := uniform low high st in
  let '(n2, st) := uniform low high st in
  let '(n3, st) := uniform low high st in
  ((n0, n1, n2, n3), st).

(** ** BB_augment *)

(** [np.ceil] *)
Definition Qceil (x : Q) : Q := inject_Z (Qceiling x).

(** [np.clip(x, lo, hi)] = [minimum(hi, maximum(x, lo))] *)
Definition clip (x lo hi : Q) : Q := Qminb hi (Qmaxb x lo).

(** One corner of [np.clip(np.ceil(charBBs[i] + noise) + noise, 0, img_wh)],
    where [noise] already carries the corner's sign pattern. *)
Definition perturb_point (p noise : point) (img_wh : Q * Q) : point :=
  let cx := Qceil (p.1 + noise.1) in
  let cy := Qceil (p.2 + noise.2) in
  (clip (cx + noise.1) 0 img_wh.1, clip (cy + noise.2) 0 img_wh.2).

(** The same corner before clamping. *)
Definition perturb_point_unclipped (p noise : point) : point :=
  ((Qceil (p.1 + noise.1) + noise.1)%Q, (Qceil (p.2 + noise.2) + noise.2)%Q).

(** [noise = np.array([noise_x, noise_y]).T * [[-1,-1],[1,-1],[1,1],[-1,1]]] *)
Definition signed_noise (noise_x noise_y : Q * Q * Q * Q)
    : point * point * point * point :=
  let '(x0, x1, x2, x3) := noise_x in
  let '(y0, y1, y2, y3) := noise_y in
  ((x0 * -1, y0 * -1), (x1 * 1, y1 * -1),
   (x2 * 1, y2 * 1), (x3 * -1, y3 * 1))%Q.

Definition perturb_BB (BB : Quad) (noise_x noise_y : Q * Q * Q * Q)
    (img_wh : Q * Q) : Quad :=
  let '(n0, n1, n2, n3) := signed_noise noise_x noise_y in
  mkQuad (perturb_point (q0 BB) n0 img_wh) (perturb_point (q1 BB) n1 img_wh)
         (perturb_point (q2 BB) n2 img_wh) (perturb_point (q3 BB) n3 img_wh).

Definition perturb_BB_unclipped (BB : Quad) (noise_x noise_y : Q * Q * Q * Q)
    : Quad :=
  let '(n0, n1, n2, n3) := signed_noise noise_x noise_y in
  mkQuad (perturb_point_unclipped (q0 BB) n0) (perturb_point_unclipped (q1 BB) n1)
         (perturb_point_unclipped (q2 BB) n2) (perturb_point_unclipped (q3 BB) n3).

(** The eight values drawn for one box, in the order the source draws
    them. *)
Definition draw_noise (BB : Quad) (expand_coeff contract_coeff : Q) (st : St)
    : (Q * Q * Q * Q) * (Q * Q * Q * Q) * St :=
  let '(w_c, h_c) := get_width_height BB in
  let low_x := (-1 * contract_coeff * w_c)%Q in
  let low_y := (-1 * contract_coeff * h_c)%Q in
  let high_x := (expand_coeff * w_c)%Q in
  let high_y := (expand_coeff * h_c)%Q in
  let '(noise_x, st) := uniform4 low_x high_x st in
  let '(noise_y, st) := uniform4 low_y high_y st in
  (noise_x, noise_y, st).

(** The body of the perturbation loop for a box with a truthy label. *)
Definition augment_BB (BB : Quad) (img_wh : Q * Q)
    (expand_coeff contract_coeff : Q) (st : St) : Quad * St :=
  let '(noise_x, noise_y, st) := draw_noise BB expand_coeff contract_coeff st in
  let new_charBB := perturb_BB BB noise_x noise_y img_wh in
  (* perturb only if dimensions > 1; the source measures [BB] here *)
  let '(new_width, new_height) := get_width_height BB in
  if negb (Qle_bool new_width 1) && negb (Qle_bool new_height 1)
  then (new_charBB, st)
  else (BB, st).

(** [for i, BB in enumerate(charBBs): if gts[i]: ...] *)
Fixpoint augment_loop (gts : list pyval) (img_wh : Q * Q)
    (expand_coeff contract_coeff : Q) (i : nat) (charBBs : list Quad)
    (st : St) : result (list Quad) * St :=
  match charBBs with
  | [] => (ok [], st)
  | BB :: rest =>
      match getitem gts i with
      | inl e => (raise e, st)
      | inr g =>
          let '(BB', st) :=
            if truthy g
            then augment_BB BB img_wh expand_coeff contract_coeff st
            else (BB, st) in
          let '(r, st) :=
            augment_loop gts img_wh expand_coeff contract_coeff (S i) rest st in
          (rbind r (λ out, ok (BB' :: out)), st)
      end
  end.

(** [int(x)] on a float: truncation toward zero. *)
Definition Qtrunc (x : Q) : Z :=
  if Qle_bool 0 x then Qfloor x else Qceiling x.

(** [genNonCharBBs] is a stub in the source: it returns [None]. *)
Definition genNonCharBBs (wordBBs : option (list Quad)) (img_wh : Q * Q)
    (N_nonchars : Z) (retries : nat) : option (list Quad) := None.

Definition BB_augment (charBBs : list Quad) (wordBBs : option (list Quad))
    (gts : list pyval) (img_wh : Q * Q) (nonchars shuffle : bool)
    (batch_size_limit : option Z)
    (fraction_nonchar expand_coeff contract_coeff : Q) (st : St)
    : result (list Quad * list pyval) * St :=
  let '(N, batch_size_limit) :=
    match batch_size_limit with
    | None => (Z.of_nat (length gts), None)
    | Some lim =>
        if (lim <=? 0)%Z then (Z.of_nat (length gts), None)
        else (Z.min (Z.of_nat (length gts)) lim, Some lim)
    end in
  let shuffled : result (list Quad * list pyval * St) :=
    if nonchars then
      (* assert fraction_nonchar < 1 *)
      if Qle_bool 1 fraction_nonchar then raise AssertionError
      else
        let N_nonchars := Qtrunc (fraction_nonchar * inject_Z N) in
        let noncharBBs := genNonCharBBs wordBBs img_wh N_nonchars 10 in
        let '(charBBs, gts, st) := shuffle_in_unison charBBs gts st in
        let charBBs := slice_to charBBs (N - N_nonchars) in
        let gts := slice_to gts (N - N_nonchars) in
        let '(charBBs, gts) :=
          match noncharBBs with
          | Some (_ :: _ as ncs) =>
              (charBBs ++ ncs, gts ++ replicate (Z.to_nat N_nonchars) PyNone)
          | _ => (charBBs, gts)
          end in
        ok (shuffle_in_unison charBBs gts st)
    else if shuffle then ok (shuffle_in_unison charBBs gts st)
    else ok (charBBs, gts, st) in
  match shuffled with
  | inl e => (raise e, st)
  | inr (charBBs, gts, st) =>
      (* limit the inputs to batch_size_limit *)
      let charBBs := slice_to_opt charBBs batch_size_limit in
      let gts := slice_to_opt gts batch_size_limit in
      let '(r, st) :=
        augment_loop gts img_wh expand_coeff contract_coeff 0 charBBs st in
      (rbind r (λ charBBs, ok (charBBs, gts)), st)
  end.

End WithRandomState.

(** ** string_to_onehot *)

(** The [alphabet] argument is either a [str] (the function's own default)
    or a list of objects (the module constant [ALPHABET]).  The two differ
    in what [char in alphabet] means: substring test against membership. *)
Inductive alphabet_t : Type :=
  | AlphaStr (s : string)
  | AlphaList (l : list pyval).

Definition char_str (c : ascii) : string := String c EmptyString.

(** The items [enumerate(alphabet)] runs over. *)
Definition alphabet_items (a : alphabet_t) : list pyval :=
  match a with
  | AlphaStr s => (λ c, PyStr (char_str c)) <$> list_ascii_of_string s
  | AlphaList l => l
  end.

Definition default_alphabet : string :=
  "AaBbCDdEeFfGgHhIiJjKLlMmNnOPQqRrSTtUVWXYZ".

(** [ALPHABET = list("AaBb...") + [None,]] *)
Definition ALPHABET : alphabet_t :=
  AlphaList (alphabet_items (AlphaStr default_alphabet) ++ [PyNone]).

(** [s in t] on two strings. *)
Fixpoint str_contains (s t : string) : bool :=
  String.prefix s t ||
  match t with
  | EmptyString => false
  | String _ t' => str_contains s t'
  end.

(** [char in alphabet] for a [str] [char]. *)
Definition str_in (s : string) (a : alphabet_t) : bool :=
  match a with
  | AlphaStr t => str_contains s t
  | AlphaList l => bool_decide (PyStr s ∈ l)
  end.

(** [str.swapcase], on ASCII letters; other bytes are left alone. *)
Definition swapcase_ascii (c : ascii) : ascii :=
  let n := nat_of_ascii c in
  if (65 <=? n)%nat && (n <=? 90)%nat then ascii_of_nat (n + 32)
  else if (97 <=? n)%nat && (n <=? 122)%nat then ascii_of_nat (n - 32)
  else c.

Fixpoint swapcase (s : string) : string :=
  match s with
  | EmptyString => EmptyString
  | String c s' => String (swapcase_ascii c) (swapcase s')
  end.

Definition enumerate {A} (l : list A) : list (nat * A) :=
  zip (seq 0 (length l)) l.

(** [dict((c, i) for i, c in enumerate(alphabet))]: a later duplicate
    overwrites an earlier one. *)
Definition dict_of_items (items : list pyval) : gmap pyval nat :=
  foldl (λ m ic, <[ic.2 := ic.1]> m) ∅ (enumerate items).

Definition alphabet_falsy (a : option alphabet_t) : bool :=
  match a with
  | None => true
  | Some (AlphaStr s) => String.eqb s ""
  | Some (AlphaList l) => bool_decide (l = [])
  end.

Definition dict_falsy (d : option (gmap pyval nat)) : bool :=
  match d with
  | None => true
  | Some m => bool_decide (m = ∅)
  end.

(** [char_to_int[char]] *)
Definition dict_get (d : gmap pyval nat) (k : pyval) : result nat :=
  match d !! k with
  | Some i => ok i
  | None => raise KeyError
  end.

(** One iteration of the encoding loop. *)
Definition encode_char (alphabet : option alphabet_t) (char_to_int : gmap pyval nat)
    (char : pyval) : result nat :=
  match char with
  | PyStr s =>
      match alphabet with
      | None => raise TypeError          (* [char not in None] *)
      | Some a =>
          let s := if negb (str_in s a) then swapcase s else s in
          let char := if negb (str_in s a) then PyNone else PyStr s in
          dict_get char_to_int char
      end
  | _ => dict_get char_to_int PyNone     (* not isinstance(char, str) *)
  end.

Fixpoint encode_loop (alphabet : option alphabet_t) (char_to_int : gmap pyval nat)
    (string : list pyval) : result (list nat) :=
  match string with
  | [] => ok []
  | char :: rest =>
      rbind (encode_char alphabet char_to_int char) (λ j,
        rbind (encode_loop alphabet char_to_int rest) (λ js, ok (j :: js)))
  end.

(** The returned tensor: a stack of one-hot rows, or the flat indices. *)
Inductive tensor : Type :=
  | OneHots (rows : list (list Q))
  | Indices (idx : list nat).

(** [one_hots[i][j] = 1.0] on a zero row of width [n] *)
Definition one_hot_row (n j : nat) : result (list Q) :=
  if (j <? n)%nat then ok (<[j:=1%Q]> (replicate n 0%Q)) else raise IndexError.

Fixpoint one_hot_rows (n : nat) (encoded_data : list nat) : result (list (list Q)) :=
  match encoded_data with
  | [] => ok []
  | j :: rest =>
      rbind (one_hot_row n j) (λ r,
        rbind (one_hot_rows n rest) (λ rs, ok (r :: rs)))
  end.

(** The alphabet and index dictionary the encoding loop works with. *)
Definition build_char_to_int (alphabet : option alphabet_t)
    (char_to_int : option (gmap pyval nat)) (include_nonchar : bool)
    : option alphabet_t * gmap pyval nat :=
  if dict_falsy char_to_int then
    let alphabet :=
      if alphabet_falsy alphabet then Some (AlphaStr default_alphabet)
      else alphabet in
    let d := dict_of_items (from_option alphabet_items [] alphabet) in
    let d :=
      if include_nonchar && bool_decide (d !! PyNone = None)
      then <[PyNone := size d]> d else d in
    (alphabet, d)
  else (alphabet, default ∅ char_to_int).

Definition string_to_onehot (string : list pyval) (alphabet : option alphabet_t)
    (char_to_int : option (gmap pyval nat)) (include_nonchar to_onehot : bool)
    : result tensor :=
  let '(alphabet, char_to_int) :=
    build_char_to_int alphabet char_to_int include_nonchar in
  rbind (encode_loop alphabet char_to_int string) (λ encoded_data,
    if to_onehot then
      rbind (one_hot_rows (size char_to_int) encoded_data) (λ rows, ok (OneHots rows))
    else ok (Indices encoded_data)).





(** ** The sample pipelines *)

(** Image access is external ([PIL], [image_proc.crop], [cv2.resize]); the
    pipelines see an image through these operations.  A raster is the flat
    list of its channel values. *)
Class ImageOps (Image : Type) : Type := {
  image_width : Image → Z;
  image_height : Image → Z;
  (* image_proc.crop(img, i, j, h, w), as float32 *)
  crop : Image → Q → Q → Q → Q → list Q;
  (* cv2.resize(cropped, dsize=size).transpose(2,0,1) *)
  resize : list Q → nat * nat → list Q
}.

Section Pipelines.
Context {St : Type} `{!RandomState St} {Image : Type} `{!ImageOps Image}.

(** [cropBB(img, BB, fast=True)]: the extent of the box, the size rounded
    up.  ([order_points] permutes the corners and so leaves the minima and
    maxima unchanged.) *)
Definition cropBB_fast (img : Image) (BB : Quad) : list Q :=
  let j := min4 (q0 BB).1 (q1 BB).1 (q2 BB).1 (q3 BB).1 in
  let i := min4 (q0 BB).2 (q1 BB).2 (q2 BB).2 (q3 BB).2 in
  let w := Qceil (max4 (q0 BB).1 (q1 BB).1 (q2 BB).1 (q3 BB).1 - j) in
  let h := Qceil (max4 (q0 BB).2 (q1 BB).2 (q2 BB).2 (q3 BB).2 - i) in
  crop img i j h w.

(** [batch = np.zeros((N,C,*size))] filled by [batch[i] = ...] for every
    box; a box beyond the [N] rows raises [IndexError]. *)
Fixpoint fill_batch (img : Image) (size : nat * nat) (i : nat)
    (charBBs : list Quad) (batch : list (list Q)) : result (list (list Q)) :=
  match charBBs with
  | [] => ok batch
  | charBB :: rest =>
      if (i <? length batch)%nat then
        let cropped := resize (cropBB_fast img charBB) size in
        fill_batch img size (S i) rest (<[i:=cropped]> batch)
      else raise IndexError
  end.

Definition zeros_batch (N : nat) (size : nat * nat) : list (list Q) :=
  replicate N (replicate (3 * size.1 * size.2) 0%Q).

(** [batch /= 255.0; batch -= 0.5; batch *= 2] *)
Definition scale_pixel (x : Q) : Q := ((x / 255 - (1 # 2)) * 2)%Q.

Record dataset_config : Type := {
  cfg_size : nat * nat;
  cfg_batch_size_limit : option Z;
  cfg_augment : bool;
  cfg_shuffle : bool;
  cfg_alphabet : alphabet_t
}.

(** One decoded ground-truth record. *)
Record gt_record : Type := {
  rec_image : Image;
  rec_charBBs : list Quad;
  rec_wordBBs : option (list Quad);
  rec_chars : list pyval
}.

(** The part both pipelines share up to the batch of resized crops:
    filter, then augment or shuffle-and-truncate, then crop and resize. *)
Definition sample_boxes (cfg : dataset_config) (r : gt_record)
    (wordBBs : option (list Quad)) (st : St)
    : result (list (list Q) * list pyval) * St :=
  let img := rec_image r in
  let W := inject_Z (image_width img) in
  let H := inject_Z (image_height img) in
  (* filter faulty values *)
  match filter_BBs (rec_charBBs r) (rec_chars r) (W, H) with
  | inl e => (raise e, st)
  | inr (charBBs, chars) =>
      let '(sel, st) :=
        if cfg_augment cfg then
          BB_augment charBBs wordBBs chars (W, H) false
            (cfg_shuffle cfg) (cfg_batch_size_limit cfg)
            (1 # 10) (2 # 10) (2 # 10) st
        else
          let '(charBBs, chars, st) :=
            if cfg_shuffle cfg then shuffle_in_unison charBBs chars st
            else (charBBs, chars, st) in
          (ok (slice_to_opt charBBs (cfg_batch_size_limit cfg),
               slice_to_opt chars (cfg_batch_size_limit cfg)), st) in
      match sel with
      | inl e => (raise e, st)
      | inr (charBBs, chars) =>
          let N := length chars in
          (rbind (fill_batch img (cfg_size cfg) 0 charBBs
                    (zeros_batch N (cfg_size cfg)))
             (λ batch, ok (batch, chars)), st)
      end
  end.

(** [SynthCharDataset.__getitem__]: the batch is rescaled to [-1,1]. *)
Definition SynthCharDataset_getitem (cfg : dataset_config) (r : gt_record)
    (st : St) : result (list (list Q) * tensor) * St :=
  let '(b, st) := sample_boxes cfg r (rec_wordBBs r) st in
  (rbind b (λ bc : list (list Q) * list pyval,
     let '(batch, chars) := bc in
     (* scale to [-1,1] *)
     let batch := (λ img : list Q, scale_pixel <$> img) <$> batch in
     rbind (string_to_onehot chars (Some (cfg_alphabet cfg)) None true false)
       (λ onehot_chars, ok (batch, onehot_chars))), st).

(** [ICDAR2013CharDataset.__getitem__]: the batch goes to the tensor as
    it is. *)
Definition ICDAR2013CharDataset_getitem (cfg : dataset_config) (r : gt_record)
    (st : St) : result (list (list Q) * tensor) * St :=
  let '(b, st) := sample_boxes cfg r None st in
  (rbind b (λ bc : list (list Q) * list pyval,
     let '(batch, chars) := bc in
     rbind (string_to_onehot chars (Some (cfg_alphabet cfg)) None true false)
       (λ onehot_chars, ok (batch, onehot_chars))), st).

(** Every value of every image of the batch satisfies [P]. *)
Definition batch_Forall (P : Q → Prop) (batch : list (list Q)) : Prop :=
  Forall (Forall P) batch.

Definition in_unit_range (x : Q) : Prop := (-1 <= x)%Q ∧ (x <= 1)%Q.
Definition in_byte_range (x : Q) : Prop := (0 <= x)%Q ∧ (x <= 255)%Q.

End Pipelines.

(** A one-colour image: every crop, whatever its extent, holds that value. *)
Record flat_image : Type := {
  flat_w : Z;
  flat_h : Z;
  flat_value : Q
}.

Global Instance flat_image_ops : ImageOps flat_image := {
  image_width := flat_w;
  image_height := flat_h;
  crop img i j h w :=
    replicate (3 * Z.to_nat (Qceiling h) * Z.to_nat (Qceiling w)) (flat_value img);
  resize cropped size :=
    replicate (3 * size.1 * size.2) (default 0%Q (head cropped))
}.

(** ** genBalancedCharDataset *)

(** One entry of the ground-truth archive, as the extraction sees it: the
    joined transcription and whether the image file is on disk. *)
Record gt_entry : Type := {
  entry_txt : string;
  entry_img_exists : bool
}.

(** [<char_dir>/<char>/<char>_<i>_<k>.png], identified by its three
    components. *)
Definition char_path : Type := (string * nat * nat)%type.

Definition classes_default : list string :=
  char_str <$> list_ascii_of_string default_alphabet.

(** [{c: 0 for c in classes}] *)
Definition init_distribution (classes : list string) : gmap string nat :=
  foldl (λ d c, <[c:=0]> d) ∅ classes.

Definition list_min (l : list nat) : option nat :=
  match l with
  | [] => None
  | x :: l' => Some (foldr Nat.min x l')
  end.

(** [min(distribution.values())]; [None] stands for the [ValueError] on an
    empty dictionary. *)
Definition dist_min (distribution : gmap string nat) : option nat :=
  list_min ((map_to_list distribution).*2).

(** The [for k, char in enumerate(string)] loop for image [i], from
    position [k] on.  [N_max] is a sample count, a natural number.
    [imwrite_rejects_empty] says what [cv2.imwrite] does with the [None]
    that [getCroppedImage] returns for a missing image: raise, or write
    nothing and return.  The directories that [mkdir] creates are not
    tracked: [os.path.isfile] is false on a directory. *)
Fixpoint extract_chars (N_max : nat) (skip_existing imwrite_rejects_empty : bool)
    (img_exists : bool) (i k : nat) (chars : list ascii)
    (distribution : gmap string nat) (fs : gset char_path)
    : result (gmap string nat * gset char_path) :=
  match chars with
  | [] => ok (distribution, fs)
  | c :: rest =>
      let char := char_str c in
      let continue := extract_chars N_max skip_existing imwrite_rejects_empty
                        img_exists i (S k) rest in
      match distribution !! char with
      | None => continue distribution fs            (* char not in distribution *)
      | Some n =>
          if (N_max <=? n)%nat then continue distribution fs
          else
            let p : char_path := (char, i, k) in
            if skip_existing && bool_decide (p ∈ fs) then continue distribution fs
            else if img_exists then
              (* cv2.imwrite(char_path, char_img); distribution[char] += 1 *)
              continue (<[char := S n]> distribution) ({[p]} ∪ fs)
            else if imwrite_rejects_empty then raise cv2_error
            else continue (<[char := S n]> distribution) fs
      end
  end.

(** The [for i in random.sample(range(N_images), N_images)] loop over the
    remaining indices [order]. *)
Fixpoint extract_images (N_max : nat) (skip_existing imwrite_rejects_empty : bool)
    (corpus : list gt_entry) (order : list nat)
    (distribution : gmap string nat) (fs : gset char_path)
    : result (gmap string nat * gset char_path) :=
  match order with
  | [] => ok (distribution, fs)
  | i :: rest =>
      match dist_min distribution with
      | None => raise ValueError
      | Some m =>
          if (N_max <=? m)%nat then ok (distribution, fs)       (* break *)
          else
            match corpus !! i with
            | None => raise IndexError
            | Some e =>
                rbind (extract_chars N_max skip_existing imwrite_rejects_empty
                         (entry_img_exists e) i 0
                         (list_ascii_of_string (entry_txt e)) distribution fs)
                  (λ '(distribution, fs),
                     extract_images N_max skip_existing imwrite_rejects_empty
                       corpus rest distribution fs)
            end
      end
  end.

(** [order] is the sequence [random.sample] produced; the result is the
    final distribution (which the source prints) and the files on disk. *)
Definition genBalancedCharDataset (N_max : nat) (corpus : list gt_entry)
    (fs : gset char_path) (skip_existing : bool) (classes : list string)
    (imwrite_rejects_empty : bool) (order : list nat)
    : result (gmap string nat * gset char_path) :=
  let classes := if bool_decide (classes = []) then classes_default else classes in
  let distribution := init_distribution classes in
  extract_images N_max skip_existing imwrite_rejects_empty corpus order
    distribution fs.

(** All character occurrences of the images [order], as the paths they
    would be written to. *)
Definition occurrences_of (i : nat) (e : gt_entry) : list char_path :=
  (λ kc, (char_str kc.2, i, kc.1)) <$> enumerate (list_ascii_of_string (entry_txt e)).

Definition corpus_occurrences (corpus : list gt_entry) : list char_path :=
  mjoin ((λ ie, occurrences_of ie.1 ie.2) <$> enumerate corpus).

(** An occurrence of class [c] is extractable when its target file is not
    already there (or existing files are not skipped). *)
Definition extractable (skip_existing : bool) (fs : gset char_path)
    (c : string) (p : char_path) : bool :=
  bool_decide (p.1.1 = c) && negb (skip_existing && bool_decide (p ∈ fs)).

Definition count_extractable (skip_existing : bool) (fs : gset char_path)
    (c : string) (occs : list char_path) : nat :=
  length (filter (λ p, extractable skip_existing fs c p = true) occs).

(** ** Auxiliary definitions for the statements *)

(** The bottom-right corner and the extent of the containing rectangle. *)
Definition rect_br (BB : Quad) : point := (get_containing_rect BB).1.2.
Definition rect_wh (BB : Quad) : Q * Q :=
  let '(tl, tr, br, bl) := get_containing_rect BB in
  (br.1 - tl.1, br.2 - tl.2)%Q.

(** Example boxes in a 10 x 10 image: one well inside, one whose right
    edge lies exactly on the image width, one of width 1. *)
Definition inner_box : Quad := mkQuad (2, 2)%Q (5, 2)%Q (5, 6)%Q (2, 6)%Q.
Definition edge_box : Quad := mkQuad (2, 2)%Q (10, 2)%Q (10, 6)%Q (2, 6)%Q.
Definition thin_box : Quad := mkQuad (2, 2)%Q (3, 2)%Q (3, 6)%Q (2, 6)%Q.

Definition Qred_point (p : point) : point := (Qred p.1, Qred p.2).
Definition Qred_quad (BB : Quad) : Quad :=
  mkQuad (Qred_point (q0 BB)) (Qred_point (q1 BB))
         (Qred_point (q2 BB)) (Qred_point (q3 BB)).

(** A 100 x 100 box in a 1000 x 1000 image, a 2 x 2 box in a 100 x 100 image. *)
Definition big_box : Quad :=
  mkQuad (100, 100)%Q (200, 100)%Q (200, 200)%Q (100, 200)%Q.
Definition small_box : Quad :=
  mkQuad (10, 10)%Q (12, 10)%Q (12, 12)%Q (10, 12)%Q.

(** The alphabet the encoding works with when none, or an empty one, is
    passed. *)
Definition effective_alphabet (alphabet : option alphabet_t) : alphabet_t :=
  match alphabet with
  | Some a => if alphabet_falsy alphabet then AlphaStr default_alphabet else a
  | None => AlphaStr default_alphabet
  end.

(** The end-to-end scenario of the specification on an all-white image:
    100 x 100, one box (10,10)-(30,30) labelled 'A', no augmentation, no
    shuffling, no batch limit (crops resized to 2 x 2 here). *)
Definition white_record : gt_record := {|
  rec_image := {| flat_w := 100; flat_h := 100; flat_value := 255 |};
  rec_charBBs := [mkQuad (10, 10)%Q (30, 10)%Q (30, 30)%Q (10, 30)%Q];
  rec_wordBBs := None;
  rec_chars := [PyStr "A"]
|}.

Definition plain_config : dataset_config := {|
  cfg_size := (2, 2);
  cfg_batch_size_limit := None;
  cfg_augment := false;
  cfg_shuffle := false;
  cfg_alphabet := ALPHABET
|}.

(** The occurrences of image [i] from position [k] on. *)
Fixpoint occs_from (i k : nat) (chars : list ascii) : list char_path :=
  match chars with
  | [] => []
  | c :: rest => (char_str c, i, k) :: occs_from i (S k) rest
  end.

(** The occurrences of the image at index [i] of the corpus. *)
Definition entry_occurrences (corpus : list gt_entry) (i : nat) : list char_path :=
  match corpus !! i with
  | Some e => occurrences_of i e
  | None => []
  end.

(** The classes whose counts the extraction tracks. *)
Definition tracked_classes (classes : list string) : list string :=
  if bool_decide (classes = []) then classes_default else classes.

(** Three images on disk, classes a and b, two samples each: the second
    image in the drawn order completes both classes. *)
Definition small_corpus : list gt_entry :=
  [ {| entry_txt := "ab"; entry_img_exists := true |};
    {| entry_txt := "bxa"; entry_img_exists := true |};
    {| entry_txt := "ab"; entry_img_exists := true |} ].

(** Case analysis on the condition of the outermost [if] of a hypothesis,
    or of the left-hand side of the goal. *)
Ltac destruct_if_in H :=
  match type of H with
  | (if ?b then _ else _) = _ => destruct b
  end.

Ltac destruct_if_goal Heq :=
  match goal with
  | |- context [if ?b then _ else _] => destruct b eqn:Heq
  end.

Global Instance PyStr_char_inj : Inj (=) (=) (λ c, PyStr (char_str c)).
Proof. by intros c1 c2 [= ->]. Qed.

(** ** Auxiliary definitions for the further properties *)

(** The box moved by [(dx, dy)]. *)
Definition translate_point (dx dy : Q) (p : point) : point :=
  ((p.1 + dx)%Q, (p.2 + dy)%Q).

Definition translate_quad (dx dy : Q) (BB : Quad) : Quad :=
  mkQuad (translate_point dx dy (q0 BB)) (translate_point dx dy (q1 BB))
         (translate_point dx dy (q2 BB)) (translate_point dx dy (q3 BB)).

(** All corners lie in [0, W] x [0, H]. *)
Definition point_in_image (img_wh : Q * Q) (p : point) : Prop :=
  (0 <= p.1 ∧ p.1 <= img_wh.1 ∧ 0 <= p.2 ∧ p.2 <= img_wh.2)%Q.

Definition in_image (img_wh : Q * Q) (BB : Quad) : Prop :=
  point_in_image img_wh (q0 BB) ∧ point_in_image img_wh (q1 BB) ∧
  point_in_image img_wh (q2 BB) ∧ point_in_image img_wh (q3 BB).

(** How many items survive the truncation of [BB_augment]: a limit of
    [None], zero or below keeps everything. *)
Definition effective_limit (batch_size_limit : option Z) (len : nat) : nat :=
  match batch_size_limit with
  | None => len
  | Some lim => if (lim <=? 0)%Z then len else Nat.min len (Z.to_nat lim)
  end.

(** One output box of the perturbation loop against its input box: the
    box itself, or a perturbed copy. *)
Definition augmented_from (img_wh : Q * Q) (BB BB' : Quad) : Prop :=
  BB' = BB ∨ ∃ noise_x noise_y, BB' = perturb_BB BB noise_x noise_y img_wh.

(** A label the encoding loop replaces by [None]: not a string, or a
    string that is in the alphabet neither as it is nor case-swapped. *)
Definition falls_back (a : alphabet_t) (label : pyval) : bool :=
  match label with
  | PyStr s => negb (str_in s a) && negb (str_in (swapcase s) a)
  | _ => true
  end.





(** Case analysis on the condition of the outermost [if] of a hypothesis,
    remembering its value. *)
Ltac destruct_if_in_eqn H Heq :=
  match type of H with
  | (if ?b then _ else _) = _ => destruct b eqn:Heq
  end.

(** ** cropBB, the benchmark annotation rows, the classifier's shapes *)

(** The arguments [(i, j, h, w)] that [cropBB(img, BB, fast=True)] hands to
    [image_proc.crop]; the size is integral after [np.ceil]. *)
Definition crop_window (BB : Quad) : Q * Q * Z * Z :=
  let j := min4 (q0 BB).1 (q1 BB).1 (q2 BB).1 (q3 BB).1 in
  let i := min4 (q0 BB).2 (q1 BB).2 (q2 BB).2 (q3 BB).2 in
  let w := Qceiling (max4 (q0 BB).1 (q1 BB).1 (q2 BB).1 (q3 BB).1 - j) in
  let h := Qceiling (max4 (q0 BB).2 (q1 BB).2 (q2 BB).2 (q3 BB).2 - i) in
  (i, j, h, w).

(** One row of a benchmark annotation file, as [ICDAR2013Dataset] reads
    it: the two opposite corners and the character. *)
Record icdar_row : Type := {
  row_x1 : Q; row_y1 : Q; row_x2 : Q; row_y2 : Q;
  row_character : pyval
}.

(** [gt_df[['x1','y1','x2','y1','x2','y2','x1','y2']].to_numpy().reshape(-1,4,2)],
    one row of it. *)
Definition icdar_box (row : icdar_row) : Quad :=
  mkQuad (row_x1 row, row_y1 row) (row_x2 row, row_y1 row)
         (row_x2 row, row_y2 row) (row_x1 row, row_y2 row).

(** What [ICDAR2013Dataset.__getitem__] returns besides the image. *)
Definition icdar_annotations (rows : list icdar_row) : list Quad * list pyval :=
  (icdar_box <$> rows, row_character <$> rows).

(** Shapes of the tensors that flow through [CharClassifier.forward]; an
    operation that torch rejects for the shape at hand gives [None]. *)
Definition shape4 : Type := (nat * nat * nat * nat)%type.

(** One spatial side through [nn.Conv2d(kernel_size=k)], no padding,
    stride 1. *)
Definition conv_side (k s : nat) : option nat :=
  if (k <=? s) then Some (s - k + 1) else None.

(** One spatial side through [F.max_pool2d(x, k)]: floor division; an
    empty output is rejected. *)
Definition pool_side (k s : nat) : option nat :=
  if (0 <? s / k) then Some (s / k) else None.

Definition conv2d_shape (in_channels out_channels kernel_size : nat)
    (x : shape4) : option shape4 :=
  let '(n, c, h, w) := x in
  if bool_decide (c = in_channels) then
    h' ← conv_side kernel_size h;
    w' ← conv_side kernel_size w;
    Some (n, out_channels, h', w')
  else None.

Definition max_pool2d_shape (kernel_size : nat) (x : shape4) : option shape4 :=
  let '(n, c, h, w) := x in
  h' ← pool_side kernel_size h;
  w' ← pool_side kernel_size w;
  Some (n, c, h', w').

(** [nn.Linear(in_features, out_features)] on a batch of flat rows. *)
Definition linear_shape (in_features out_features : nat) (x : nat * nat)
    : option (nat * nat) :=
  let '(n, f) := x in
  if bool_decide (f = in_features) then Some (n, out_features) else None.

(** [CharClassifier(num_classes).forward]: [relu] and [log_softmax] keep
    the shape. *)
Definition forward_shape (num_classes : nat) (x : shape4) : option (nat * nat) :=
  x ← conv2d_shape 3 32 3 x;     x ← max_pool2d_shape 2 x;
  x ← conv2d_shape 32 32 3 x;
  x ← conv2d_shape 32 64 3 x;    x ← max_pool2d_shape 2 x;
  x ← conv2d_shape 64 64 3 x;
  x ← conv2d_shape 64 128 3 x;   x ← max_pool2d_shape 2 x;
  x ← conv2d_shape 128 256 3 x;
  let '(n, c, h, w) := x in      (* torch.flatten(x, 1) *)
  x ← linear_shape (256 * 2 * 2) 128 (n, c * h * w);
  linear_shape 128 num_classes x.

(** One spatial side through the six convolutions and three poolings. *)
Definition forward_side (s : nat) : option nat :=
  s ← conv_side 3 s; s ← pool_side 2 s;
  s ← conv_side 3 s;
  s ← conv_side 3 s; s ← pool_side 2 s;
  s ← conv_side 3 s;
  s ← conv_side 3 s; s ← pool_side 2 s;
  conv_side 3 s.


(** One layer of the shape computation, both sides at once; the two
    arguments are the side-wise equations of the convolution and of the
    pooling. *)
Ltac shape_stage conv_eq pool_eq :=
  cbn [mbind option_bind];
  first [rewrite conv_eq, bool_decide_eq_true_2 by done
        |rewrite pool_eq];
  match goal with
  | |- context [match ?f 3 ?x with _ => _ end] =>
      destruct (f 3 x) as [?|] eqn:?;
        [|cbn [mbind option_bind]; by repeat case_match]
  | |- context [match ?f 2 ?x with _ => _ end] =>
      destruct (f 2 x) as [?|] eqn:?;
        [|cbn [mbind option_bind]; by repeat case_match]
  end;
  match goal with
  | |- context [match ?f 3 ?x with _ => _ end] =>
      destruct (f 3 x) as [?|] eqn:?;
        [|cbn [mbind option_bind]; by repeat case_match]
  | |- context [match ?f 2 ?x with _ => _ end] =>
      destruct (f 2 x) as [?|] eqn:?;
        [|cbn [mbind option_bind]; by repeat case_match]
  end.

(** * Properties *)

(** ** Results and small helpers *)

Lemma getitem_lookup {A} (l : list A) (i : nat) (x : A) :
  l !! i = Some x → getitem l i = ok x.
Proof. unfold getitem. by intros ->. Qed.

Lemma Qle_bool_false_lt (a b : Q) : Qle_bool a b = false ↔ (b < a)%Q.
Proof.
  destruct (Qle_bool a b) eqn:Hab; split; try done.
  - intros Hlt. apply Qle_bool_iff in Hab. by apply Qlt_not_le in Hlt.
  - intros _. apply Qnot_le_lt. intros Hle. apply Qle_bool_iff in Hle. congruence.
Qed.

(** ** filter_BBs *)

(** What the retention test of the code decides: the corner lies strictly
    inside the image and both dimensions exceed 1. *)
Lemma keep_BB_iff (img_w img_h : Q) (BB : Quad) :
  keep_BB img_w img_h BB = true ↔
  ((rect_br BB).1 < img_w ∧ (rect_br BB).2 < img_h ∧
   1 < (rect_wh BB).1 ∧ 1 < (rect_wh BB).2)%Q.
Proof.
  unfold keep_BB, rect_br, rect_wh.
  destruct (get_containing_rect BB) as [[[tl tr] br] bl]; simpl.
  rewrite <- !Qle_bool_false_lt.
  repeat match goal with |- context [Qle_bool ?a ?b] =>
    destruct (Qle_bool a b) end; simpl; intuition congruence.
Qed.

Lemma mask_select_keep (img_w img_h : Q) (BBs : list Quad) :
  mask_select BBs (keep_BB img_w img_h <$> BBs)
  = filter (λ BB, keep_BB img_w img_h BB = true) BBs.
Proof.
  induction BBs as [|BB BBs IH]; [done|].
  rewrite fmap_cons, filter_cons. cbn [mask_select]. rewrite IH.
  destruct (keep_BB img_w img_h BB); by case_decide.
Qed.

Lemma kept_pairs_fst (img_wh : Q * Q) (BBs : list Quad) (gts : list pyval) :
  length BBs ≤ length gts →
  (kept_pairs img_wh BBs gts).*1
  = filter (λ BB, keep_BB img_wh.1 img_wh.2 BB = true) BBs.
Proof.
  unfold kept_pairs. revert gts.
  induction BBs as [|BB BBs IH]; intros [|g gts] Hlen; simpl in *; try done; try lia.
  rewrite !filter_cons. simpl.
  case_decide; simpl; rewrite IH by lia; done.
Qed.

(** The loop, on a label list long enough to be indexed throughout. *)
Lemma filter_BBs_loop_ok (img_w img_h : Q) (gts : list pyval) (BBs : list Quad) :
  ∀ (i : nat) (skip_mask : list bool) (correct_gts : list pyval),
    i + length BBs ≤ length gts →
    filter_BBs_loop img_w img_h gts i BBs skip_mask correct_gts
    = ok (skip_mask ++ (keep_BB img_w img_h <$> BBs),
          correct_gts ++ (kept_pairs (img_w, img_h) BBs (drop i gts)).*2).
Proof.
  unfold kept_pairs; simpl.
  induction BBs as [|BB BBs IH]; intros i skip_mask correct_gts Hlen; simpl in *.
  { by rewrite !app_nil_r. }
  destruct (lookup_lt_is_Some_2 gts i ltac:(lia)) as [g Hg].
  rewrite (drop_S _ _ _ Hg). simpl. rewrite filter_cons. simpl.
  destruct (keep_BB img_w img_h BB) eqn:Hk.
  - rewrite (getitem_lookup _ _ _ Hg). simpl.
    rewrite IH by lia. by rewrite <- !app_assoc.
  - simpl. rewrite IH by lia. by rewrite <- !app_assoc.
Qed.

(** Whenever the loop returns, the mask is the retention test of every box
    and one label was appended per retained box. *)
Lemma filter_BBs_loop_inv (img_w img_h : Q) (gts : list pyval) (BBs : list Quad) :
  ∀ (i : nat) (skip_mask m : list bool) (correct_gts g : list pyval),
    filter_BBs_loop img_w img_h gts i BBs skip_mask correct_gts = ok (m, g) →
    m = skip_mask ++ (keep_BB img_w img_h <$> BBs) ∧
    length g = length correct_gts
               + length (filter (λ BB, keep_BB img_w img_h BB = true) BBs).
Proof.
  induction BBs as [|BB BBs IH]; intros i skip_mask m correct_gts g Hrun; simpl in *.
  { injection Hrun as <- <-. rewrite app_nil_r. split; [done|lia]. }
  rewrite filter_cons.
  destruct (keep_BB img_w img_h BB) eqn:Hk.
  - unfold getitem in Hrun. destruct (gts !! i) as [x|]; [|done]. simpl in Hrun.
    apply IH in Hrun as [-> ->]. rewrite decide_True by done.
    rewrite <- app_assoc, length_app. simpl. split; [done|lia].
  - apply IH in Hrun as [-> ->]. rewrite decide_False by done.
    by rewrite <- app_assoc.
Qed.

Lemma filter_BBs_ok (BBs : list Quad) (gts : list pyval) (img_wh : Q * Q) :
  length BBs ≤ length gts →
  filter_BBs BBs gts img_wh
  = ok ((kept_pairs img_wh BBs gts).*1, (kept_pairs img_wh BBs gts).*2).
Proof.
  intros Hlen. destruct img_wh as [img_w img_h]. unfold filter_BBs.
  rewrite filter_BBs_loop_ok by (simpl; lia). simpl.
  rewrite mask_select_keep, kept_pairs_fst by done. by rewrite drop_0.
Qed.

Lemma kept_pairs_all_kept (img_wh : Q * Q) (BBs : list Quad) (gts : list pyval) :
  Forall (λ BB, keep_BB img_wh.1 img_wh.2 BB = true) BBs →
  kept_pairs img_wh BBs gts = zip BBs gts.
Proof.
  unfold kept_pairs. intros Hall. revert gts.
  induction Hall as [|BB BBs Hk Hall IH]; intros [|g gts]; simpl; try done.
  rewrite filter_cons. simpl. rewrite decide_True by done. by rewrite IH.
Qed.

Lemma Forall_filter_keep (img_w img_h : Q) (BBs : list Quad) :
  Forall (λ BB, keep_BB img_w img_h BB = true)
         (filter (λ BB, keep_BB img_w img_h BB = true) BBs).
Proof. apply Forall_forall. intros BB HBB. by apply list_elem_of_filter in HBB as [? _]. Qed.




(** C7: [filter_BBs] is idempotent: whenever it returns, applying it to
    its own output with the same image dimensions returns that output
    unchanged. *)
Theorem filter_BBs_idempotent
    (BBs BBs' : list Quad) (gts gts' : list pyval) (img_wh : Q * Q) :
  filter_BBs BBs gts img_wh = ok (BBs', gts') →
  filter_BBs BBs' gts' img_wh = ok (BBs', gts').
Proof.
  destruct img_wh as [img_w img_h]. intros Hout. unfold filter_BBs in Hout.
  destruct (filter_BBs_loop img_w img_h gts 0 BBs [] []) as [e|[m g]] eqn:Hrun;
    [done|].
  simpl in Hout. injection Hout as <- <-.
  apply filter_BBs_loop_inv in Hrun as [-> Hg]. simpl in Hg.
  rewrite app_nil_l, mask_select_keep in *.
  rewrite filter_BBs_ok by lia.
  rewrite kept_pairs_all_kept by apply Forall_filter_keep.
  rewrite fst_zip, snd_zip by lia. done.
Qed.

Lemma filter_BBs_idempotent_witness :
  filter_BBs [inner_box; inner_box] [PyStr "A"; PyNone] (10, 10)%Q
  = ok ([inner_box; inner_box], [PyStr "A"; PyNone]).
Proof.
  apply (filter_BBs_idempotent [inner_box; edge_box; thin_box; inner_box] _
           [PyStr "A"; PyStr "b"; PyStr "C"; PyNone]).
  by vm_compute.
Defined.

(** C10: for equally many boxes and labels, [filter_BBs] returns a box
    array and a label list of equal length, and the i-th returned label is
    the label originally paired with the i-th returned box: the returned
    pairs are a subsequence of the input pairs. *)
Theorem filter_BBs_pairing (BBs : list Quad) (gts : list pyval) (img_wh : Q * Q) :
  length BBs = length gts →
  ∃ BBs' gts',
    filter_BBs BBs gts img_wh = ok (BBs', gts') ∧
    length BBs' = length gts' ∧
    zip BBs' gts' `sublist_of` zip BBs gts ∧
    (∀ i BB g, BBs' !! i = Some BB → gts' !! i = Some g →
       ∃ j, BBs !! j = Some BB ∧ gts !! j = Some g).
Proof.
  intros Hlen.
  exists (kept_pairs img_wh BBs gts).*1, (kept_pairs img_wh BBs gts).*2.
  assert (Hsub : zip (kept_pairs img_wh BBs gts).*1 (kept_pairs img_wh BBs gts).*2
                   `sublist_of` zip BBs gts).
  { rewrite zip_fst_snd. apply sublist_filter. }
  split; [apply filter_BBs_ok; lia|].
  split; [by rewrite !length_fmap|].
  split; [done|].
  intros i BB g HBB Hg.
  assert (Hin : (BB, g) ∈ zip BBs gts).
  { eapply elem_of_sublist; [|exact Hsub].
    apply list_elem_of_lookup. exists i.
    apply lookup_zip_with_Some. eauto. }
  apply list_elem_of_lookup in Hin as [j Hj].
  apply lookup_zip_with_Some in Hj as (BB0 & g0 & [= -> ->] & ? & ?).
  eauto.
Qed.

Lemma filter_BBs_pairing_witness :
  ∃ BBs' gts',
    filter_BBs [inner_box; thin_box; edge_box; inner_box]
      [PyStr "x"; PyStr "y"; PyStr "z"; PyStr "w"] (10, 10)%Q = ok (BBs', gts') ∧
    length BBs' = length gts' ∧
    zip BBs' gts' `sublist_of`
      zip [inner_box; thin_box; edge_box; inner_box]
          [PyStr "x"; PyStr "y"; PyStr "z"; PyStr "w"] ∧
    (∀ i BB g, BBs' !! i = Some BB → gts' !! i = Some g →
       ∃ j, [inner_box; thin_box; edge_box; inner_box] !! j = Some BB ∧
            [PyStr "x"; PyStr "y"; PyStr "z"; PyStr "w"] !! j = Some g).
Proof.
  apply (filter_BBs_pairing [inner_box; thin_box; edge_box; inner_box]
           [PyStr "x"; PyStr "y"; PyStr "z"; PyStr "w"] (10, 10)%Q).
  reflexivity.
Defined.

(** ** shuffle_in_unison *)

Section ShuffleProperties.
Context {St : Type} `{!RandomState St}.

Lemma swap_fmap {A B} (f : A → B) (i j : nat) (x : list A) :
  swap i j (f <$> x) = f <$> swap i j x.
Proof.
  unfold swap. rewrite !list_lookup_fmap.
  destruct (x !! i), (x !! j); simpl; try done.
  by rewrite !list_fmap_insert.
Qed.

Lemma length_swap {A} (i j : nat) (x : list A) :
  length (swap i j x) = length x.
Proof.
  unfold swap. destruct (x !! i), (x !! j); try done.
  by rewrite !length_insert.
Qed.

(** A swap is the transposition of two positions. *)
Lemma swap_Permutation {A} (i j : nat) (x : list A) : swap i j x ≡ₚ x.
Proof.
  unfold swap.
  destruct (x !! i) as [xi|] eqn:Hi; [|done].
  destruct (x !! j) as [xj|] eqn:Hj; [|done].
  apply Permutation_inj. split; [by rewrite !length_insert|].
  exists (λ k, if decide (k = i) then j else if decide (k = j) then i else k).
  split.
  - intros k1 k2 Hk. repeat case_decide; congruence.
  - intros k.
    pose proof (lookup_lt_Some _ _ _ Hi). pose proof (lookup_lt_Some _ _ _ Hj).
    rewrite !list_lookup_insert, !length_insert.
    repeat case_decide; subst; try congruence; try lia;
      intuition (congruence || lia).
Qed.

Lemma shuffle_loop_fmap {A B} (f : A → B) (i : nat) :
  ∀ (st : St) (x : list A),
    shuffle_loop i st (f <$> x)
    = (f <$> (shuffle_loop i st x).1, (shuffle_loop i st x).2).
Proof.
  induction i as [|i IH]; intros st x; simpl; [done|].
  destruct (random_interval st (S i)) as [j st'].
  by rewrite swap_fmap, IH.
Qed.

Lemma shuffle_loop_Permutation {A} (i : nat) :
  ∀ (st : St) (x : list A), (shuffle_loop i st x).1 ≡ₚ x.
Proof.
  induction i as [|i IH]; intros st x; simpl; [done|].
  destruct (random_interval st (S i)) as [j st'].
  by rewrite IH, swap_Permutation.
Qed.

Lemma np_shuffle_fmap {A B} (f : A → B) (st : St) (x : list A) :
  np_shuffle st (f <$> x) = (f <$> (np_shuffle st x).1, (np_shuffle st x).2).
Proof. unfold np_shuffle. by rewrite length_fmap, shuffle_loop_fmap. Qed.

Lemma np_shuffle_Permutation {A} (st : St) (x : list A) :
  (np_shuffle st x).1 ≡ₚ x.
Proof. apply shuffle_loop_Permutation. Qed.

(** The drawn positions stay inside the list, so no swap of
    [np.random.shuffle] indexes out of range. *)
Lemma shuffle_draw_in_range (st : St) (i n : nat) :
  i < n → (random_interval st i).1 < n.
Proof. pose proof (random_interval_le st i). lia. Qed.

Lemma fmap_lookup_seq {A} (l : list A) :
  (l !!.) <$> seq 0 (length l) = Some <$> l.
Proof.
  apply list_eq. intros i. rewrite !list_lookup_fmap.
  destruct (decide (i < length l)) as [Hlt|Hge].
  - rewrite lookup_seq_lt by done. simpl.
    by destruct (lookup_lt_is_Some_2 l i Hlt) as [y ->].
  - rewrite (lookup_ge_None_2 l i) by lia.
    rewrite (lookup_ge_None_2 (seq 0 (length l)) i); [done|].
    rewrite length_seq. lia.
Qed.

(** Shuffling a list is reading it through the shuffled index list. *)
Lemma np_shuffle_indices {A} (st : St) (x : list A) :
  Some <$> (np_shuffle st x).1
  = (x !!.) <$> (np_shuffle st (seq 0 (length x))).1.
Proof.
  pose proof (np_shuffle_fmap (x !!.) st (seq 0 (length x))) as Hidx.
  pose proof (np_shuffle_fmap (@Some A) st x) as Hsome.
  rewrite fmap_lookup_seq, Hsome in Hidx.
  by injection Hidx as ->.
Qed.

End ShuffleProperties.

(** C6: for equal-length sequences and any state of the random stream,
    [shuffle_in_unison] applies one and the same permutation [p] of the
    positions to both sequences (output position [k] holds input position
    [p[k]] of either sequence), so the multiset of (box, label) pairs is
    unchanged. *)
Theorem shuffle_in_unison_same_permutation {St : Type} `{!RandomState St}
    {A B : Type} (a : list A) (b : list B) (st : St) :
  length a = length b →
  ∃ p : list nat,
    p ≡ₚ seq 0 (length a) ∧
    Some <$> (shuffle_in_unison a b st).1.1 = (a !!.) <$> p ∧
    Some <$> (shuffle_in_unison a b st).1.2 = (b !!.) <$> p ∧
    zip (shuffle_in_unison a b st).1.1 (shuffle_in_unison a b st).1.2
      ≡ₚ zip a b.
Proof.
  intros Hlen.
  exists (np_shuffle st (seq 0 (length a))).1.
  pose proof (np_shuffle_indices st a) as Ha.
  pose proof (np_shuffle_indices st b) as Hb.
  pose proof (np_shuffle_fmap fst st (zip a b)) as Hfst.
  pose proof (np_shuffle_fmap snd st (zip a b)) as Hsnd.
  rewrite fst_zip in Hfst by lia. rewrite snd_zip in Hsnd by lia.
  unfold shuffle_in_unison.
  destruct (np_shuffle st a) as [a' sta], (np_shuffle st b) as [b' stb].
  simpl in *. rewrite <- Hlen in Hb.
  injection Hfst as -> _. injection Hsnd as -> _.
  repeat split; try done.
  - apply np_shuffle_Permutation.
  - rewrite zip_fst_snd. apply np_shuffle_Permutation.
Qed.

Lemma shuffle_in_unison_same_permutation_witness :
  (shuffle_in_unison [10; 20; 30] ["x"; "y"; "z"] [3; 4]).1
  = ([20; 30; 10], ["y"; "z"; "x"]) ∧
  ∃ p : list nat,
    p ≡ₚ seq 0 3 ∧
    Some <$> (shuffle_in_unison [10; 20; 30] ["x"; "y"; "z"] [3; 4]).1.1
      = ([10; 20; 30] !!.) <$> p ∧
    Some <$> (shuffle_in_unison [10; 20; 30] ["x"; "y"; "z"] [3; 4]).1.2
      = (["x"; "y"; "z"] !!.) <$> p ∧
    zip (shuffle_in_unison [10; 20; 30] ["x"; "y"; "z"] [3; 4]).1.1
        (shuffle_in_unison [10; 20; 30] ["x"; "y"; "z"] [3; 4]).1.2
      ≡ₚ zip [10; 20; 30] ["x"; "y"; "z"].
Proof.
  split; [reflexivity|].
  apply (shuffle_in_unison_same_permutation (St:=list nat)
           [10; 20; 30] ["x"; "y"; "z"] [3; 4]).
  reflexivity.
Defined.

(** ** BB_augment *)

Section AugmentProperties.
Context {St : Type} `{!RandomState St}.

(** A drawn value lies between the two bounds. *)
Lemma uniform_range (low high : Q) (st : St) :
  (low <= high)%Q →
  (low <= (uniform low high st).1)%Q ∧ ((uniform low high st).1 <= high)%Q.
Proof.
  intros Hle. unfold uniform.
  pose proof (random_sample_range st) as [H0 H1].
  destruct (random_sample st) as [u st']. simpl in *.
  assert (0 <= high - low)%Q as Hd by lra.
  assert (0 <= (high - low) * u)%Q as Hlo by (by apply Qmult_le_0_compat).
  assert (0 <= (high - low) * (1 - u))%Q as Hhi
    by (apply Qmult_le_0_compat; [done|lra]).
  split; lra.
Qed.

(** Before clamping, a coordinate moves by twice its signed noise,
    rounded up: the noise is added once inside [np.ceil] and once more
    outside. *)
Lemma perturb_displacement (x n : Q) :
  (2 * n <= (Qceil (x + n) + n) - x)%Q ∧ ((Qceil (x + n) + n) - x < 2 * n + 1)%Q.
Proof.
  unfold Qceil.
  pose proof (Qle_ceiling (x + n)) as Hle.
  pose proof (Qceiling_lt (x + n)) as Hlt.
  unfold Z.sub in Hlt. rewrite inject_Z_plus, inject_Z_opp in Hlt.
  change (inject_Z 1) with 1%Q in Hlt.
  split; lra.
Qed.

(** The acceptance test looks at the original box: a box whose own
    dimensions exceed 1 is always replaced by the perturbed one. *)
Lemma augment_BB_accepts (BB : Quad) (img_wh : Q * Q)
    (expand_coeff contract_coeff : Q) (st : St) :
  (1 < (get_width_height BB).1)%Q → (1 < (get_width_height BB).2)%Q →
  (augment_BB BB img_wh expand_coeff contract_coeff st).1
  = perturb_BB BB (draw_noise BB expand_coeff contract_coeff st).1.1
                  (draw_noise BB expand_coeff contract_coeff st).1.2 img_wh.
Proof.
  intros Hw Hh. unfold augment_BB.
  destruct (draw_noise BB expand_coeff contract_coeff st) as [[nx ny] st'].
  destruct (get_width_height BB) as [w h]. simpl in *.
  apply Qle_bool_false_lt in Hw, Hh. by rewrite Hw, Hh.
Qed.

End AugmentProperties.

(** C1 (code defect): the corner coordinates move by twice the drawn
    perturbation.  A 100 x 100 box with every draw at 0.875 of the range
    [-20, 20] (noise 15, within the bound 0.2 * 100 = 20) comes back with
    every corner displaced by 30 and a width and height of 160. *)
Theorem BB_augment_noise_added_twice :
  let run := BB_augment [big_box] None [PyStr "A"] (1000, 1000)%Q false false
               None (1 # 10) (2 # 10) (2 # 10) (replicate 8 896) in
  (let '(nx, ny, _) := draw_noise big_box (2 # 10) (2 # 10) (replicate 8 896) in
   let '(x0, x1, x2, x3) := nx in
   let '(y0, y1, y2, y3) := ny in
   Qred <$> [x0; x1; x2; x3; y0; y1; y2; y3]) = replicate 8 15%Q ∧
  Qred_quad (perturb_BB_unclipped big_box (15, 15, 15, 15)%Q (15, 15, 15, 15)%Q)
  = mkQuad (70, 70)%Q (230, 70)%Q (230, 230)%Q (70, 230)%Q ∧
  match run.1 with
  | inr (BBs, gts) =>
      Qred_quad <$> BBs = [mkQuad (70, 70)%Q (230, 70)%Q (230, 230)%Q (70, 230)%Q]
      ∧ gts = [PyStr "A"]
  | inl _ => False
  end.
Proof. by vm_compute. Qed.

(** C3 (code defect): the acceptance test measures the original box, not
    the perturbed one.  A valid 2 x 2 box with every draw at 0.125 of the
    range comes back as a 0.4 x 0.4 box. *)
Theorem BB_augment_accepts_degenerate :
  let run := BB_augment [small_box] None [PyStr "A"] (100, 100)%Q false false
               None (1 # 10) (2 # 10) (2 # 10) (replicate 8 128) in
  filter_BBs [small_box] [PyStr "A"] (100, 100)%Q = ok ([small_box], [PyStr "A"]) ∧
  Qred_point (get_width_height small_box) = (2, 2)%Q ∧
  match run.1 with
  | inr (BBs, gts) =>
      (λ BB, Qred_point (get_width_height BB)) <$> BBs = [(2 # 5, 2 # 5)%Q]
      ∧ gts = [PyStr "A"]
  | inl _ => False
  end.
Proof. by vm_compute. Qed.

(** C5, as stated, fails: with [nonchars] off (the default) a
    [fraction_nonchar] of 1 or more is never looked at; the call shuffles,
    advancing the random stream, and returns. *)
Lemma BB_augment_fraction_unchecked_counterexample :
  BB_augment [inner_box; edge_box; thin_box] None [PyNone; PyStr ""; PyInt 0]
    (10, 10)%Q false true None 1%Q (2 # 10) (2 # 10) [3; 4; 9]
  = (ok ([edge_box; thin_box; inner_box], [PyStr ""; PyInt 0; PyNone]), [9]).
Proof. by vm_compute. Qed.

(** C5 (amended): whenever [BB_augment] is invoked with [nonchars] on and
    [fraction_nonchar >= 1], it fails with an assertion error before any
    shuffling, truncation or perturbation: the random stream is returned
    as it was received. *)
Theorem BB_augment_fraction_assert {St : Type} `{!RandomState St}
    (charBBs : list Quad) (wordBBs : option (list Quad)) (gts : list pyval)
    (img_wh : Q * Q) (shuffle : bool) (batch_size_limit : option Z)
    (fraction_nonchar expand_coeff contract_coeff : Q) (st : St) :
  (1 <= fraction_nonchar)%Q →
  BB_augment charBBs wordBBs gts img_wh true shuffle batch_size_limit
    fraction_nonchar expand_coeff contract_coeff st
  = (raise AssertionError, st).
Proof.
  intros Hfrac. apply Qle_bool_iff in Hfrac. unfold BB_augment.
  destruct batch_size_limit as [lim|]; [destruct (lim <=? 0)%Z|];
    by rewrite Hfrac.
Qed.

Lemma BB_augment_fraction_assert_witness :
  BB_augment [inner_box; edge_box; thin_box] None [PyNone; PyStr ""; PyInt 0]
    (10, 10)%Q true true None 1%Q (2 # 10) (2 # 10) [3; 4; 9]
  = (raise AssertionError, [3; 4; 9]).
Proof.
  apply (BB_augment_fraction_assert (St:=list nat)).
  by vm_compute.
Defined.

(** ** string_to_onehot *)












Lemma swapcase_char (c : ascii) : swapcase (char_str c) = char_str (swapcase_ascii c).
Proof. done. Qed.





(** With no alphabet passed, the default one has no sentinel of its own
    and the sentinel takes the index one past its last position. *)
Example string_to_onehot_default :
  string_to_onehot [PyStr "Z"; PyStr "z"; PyStr "1"; PyNone] None None true false
  = ok (Indices [40; 40; 41; 41]).
Proof. by vm_compute. Qed.

(** ** The sample pipelines *)

Lemma scale_pixel_range (x : Q) : in_byte_range x → in_unit_range (scale_pixel x).
Proof.
  unfold in_byte_range, in_unit_range, scale_pixel. intros [H0 H255].
  unfold Qdiv. change (/ 255)%Q with (1 # 255)%Q.
  split; lra.
Qed.

Section PipelineProperties.
Context {St : Type} `{!RandomState St} {Image : Type} `{!ImageOps Image}.

Lemma fill_batch_Forall (P : Q → Prop) (img : Image) (size : nat * nat)
    (charBBs : list Quad) :
  (∀ BB, Forall P (resize (cropBB_fast img BB) size)) →
  ∀ (i : nat) (batch batch' : list (list Q)),
    batch_Forall P batch →
    fill_batch img size i charBBs batch = ok batch' →
    batch_Forall P batch'.
Proof.
  intros Hcrop. unfold batch_Forall.
  induction charBBs as [|BB rest IH]; intros i batch batch' Hb Hrun; simpl in *.
  { by injection Hrun as <-. }
  destruct (i <? length batch); [|done].
  eapply IH; [|exact Hrun]. by apply Forall_insert.
Qed.

Lemma sample_boxes_Forall (P : Q → Prop) (cfg : dataset_config) (r : gt_record)
    (wordBBs : option (list Quad)) (st st' : St) (batch : list (list Q))
    (chars : list pyval) :
  P 0%Q →
  (∀ BB, Forall P (resize (cropBB_fast (rec_image r) BB) (cfg_size cfg))) →
  sample_boxes cfg r wordBBs st = (ok (batch, chars), st') →
  batch_Forall P batch.
Proof.
  intros H0 Hcrop. unfold sample_boxes.
  destruct (filter_BBs _ _ _) as [e|[charBBs chars0]]; [done|].
  destruct (if cfg_augment cfg then _ else _) as [[e|[charBBs1 chars1]] st1];
    [done|].
  destruct (fill_batch _ _ _ _ _) as [e|batch0] eqn:Hfill; [done|].
  simpl. intros [= <- <- <-].
  eapply fill_batch_Forall; [exact Hcrop| |exact Hfill].
  unfold zeros_batch, batch_Forall.
  apply Forall_replicate, Forall_replicate, H0.
Qed.

(** The synthetic-source pipeline does rescale: crops with values in
    [0,255] give a batch with values in [-1,1]. *)
Lemma SynthCharDataset_getitem_range (cfg : dataset_config) (r : gt_record)
    (st st' : St) (batch : list (list Q)) (labels : tensor) :
  (∀ BB, Forall in_byte_range
           (resize (cropBB_fast (rec_image r) BB) (cfg_size cfg))) →
  SynthCharDataset_getitem cfg r st = (ok (batch, labels), st') →
  batch_Forall in_unit_range batch.
Proof.
  intros Hcrop. unfold SynthCharDataset_getitem.
  destruct (sample_boxes cfg r (rec_wordBBs r) st)
    as [[e|[batch0 chars]] st0] eqn:Hs; [done|].
  simpl. destruct (string_to_onehot _ _ _ _ _) as [e|t]; [done|].
  simpl. intros [= <- <- <-].
  apply (sample_boxes_Forall in_byte_range) in Hs; [|by split|done].
  unfold batch_Forall in *.
  apply Forall_fmap. eapply Forall_impl; [exact Hs|].
  intros img Himg. apply Forall_fmap. eapply Forall_impl; [exact Himg|].
  intros x Hx. by apply scale_pixel_range.
Qed.

End PipelineProperties.

(** C2 (code defect): the benchmark-source pipeline returns the batch
    without rescaling; on the white image every value of its batch is 255,
    outside [-1,1], where the synthetic-source pipeline returns 1. *)
Theorem ICDAR2013CharDataset_getitem_unscaled :
  (ICDAR2013CharDataset_getitem plain_config white_record ([] : list nat)).1
  = ok ([replicate 12 255%Q], Indices [0]) ∧
  ¬ in_unit_range 255%Q ∧
  match (SynthCharDataset_getitem plain_config white_record ([] : list nat)).1 with
  | inr (batch, labels) =>
      (λ img : list Q, Qred <$> img) <$> batch = [replicate 12 1%Q]
      ∧ labels = Indices [0]
  | inl _ => False
  end.
Proof.
  split; [by vm_compute|]. split; [|by vm_compute].
  unfold in_unit_range. intros [_ Hle]. by vm_compute in Hle.
Qed.

(** ** genBalancedCharDataset *)

Lemma occs_from_enumerate (i : nat) (chars : list ascii) :
  ∀ k, (λ kc : nat * ascii, (char_str kc.2, i, kc.1)) <$> zip (seq k (length chars)) chars
       = occs_from i k chars.
Proof. induction chars as [|c rest IH]; intros k; simpl; [done|]. by rewrite IH. Qed.

Lemma occurrences_of_occs_from (i : nat) (e : gt_entry) :
  occurrences_of i e = occs_from i 0 (list_ascii_of_string (entry_txt e)).
Proof. apply occs_from_enumerate. Qed.

Lemma elem_of_occs_from (i : nat) (chars : list ascii) :
  ∀ k p, p ∈ occs_from i k chars → p.1.2 = i ∧ k ≤ p.2.
Proof.
  induction chars as [|c rest IH]; intros k p Hp; simpl in *.
  - by apply elem_of_nil in Hp.
  - apply elem_of_cons in Hp as [->|Hp]; [done|].
    apply IH in Hp as [? ?]. split; [done|lia].
Qed.

Lemma NoDup_occs_from (i : nat) (chars : list ascii) :
  ∀ k, NoDup (occs_from i k chars).
Proof.
  induction chars as [|c rest IH]; intros k; simpl; constructor; [|done].
  intros Hin. apply elem_of_occs_from in Hin as [_ Hk]. simpl in Hk. lia.
Qed.

Lemma elem_of_entry_occurrences (corpus : list gt_entry) (i : nat) (p : char_path) :
  p ∈ entry_occurrences corpus i → p.1.2 = i.
Proof.
  unfold entry_occurrences. destruct (corpus !! i) as [e|].
  - rewrite occurrences_of_occs_from. intros Hp. by apply elem_of_occs_from in Hp as [? _].
  - intros Hp. by apply elem_of_nil in Hp.
Qed.

Lemma NoDup_entry_occurrences (corpus : list gt_entry) (i : nat) :
  NoDup (entry_occurrences corpus i).
Proof.
  unfold entry_occurrences. destruct (corpus !! i) as [e|]; [|constructor].
  rewrite occurrences_of_occs_from. apply NoDup_occs_from.
Qed.

(** Occurrences of distinct images are distinct paths. *)
Lemma NoDup_order_occurrences (corpus : list gt_entry) (order : list nat) :
  NoDup order → NoDup (order ≫= entry_occurrences corpus).
Proof.
  intros Hnd. apply NoDup_bind; [|auto using NoDup_entry_occurrences|done].
  intros i1 i2 p _ _ H1 H2.
  apply elem_of_entry_occurrences in H1, H2. congruence.
Qed.

Lemma corpus_occurrences_bind (corpus : list gt_entry) :
  corpus_occurrences corpus = seq 0 (length corpus) ≫= entry_occurrences corpus.
Proof.
  unfold corpus_occurrences, enumerate.
  assert (Hgen : ∀ (pre l : list gt_entry),
    mjoin ((λ ie : nat * gt_entry, occurrences_of ie.1 ie.2)
             <$> zip (seq (length pre) (length l)) l)
    = seq (length pre) (length l) ≫= entry_occurrences (pre ++ l)).
  { intros pre l. revert pre.
    induction l as [|e l IH]; intros pre; [done|].
    csimpl. f_equal.
    - unfold entry_occurrences. by rewrite list_lookup_middle.
    - specialize (IH (pre ++ [e])). rewrite length_app in IH. simpl in IH.
      rewrite Nat.add_1_r, <- app_assoc in IH. exact IH. }
  apply (Hgen [] corpus).
Qed.

Lemma count_extractable_cons (skip_existing : bool) (fs : gset char_path)
    (c : string) (p : char_path) (occs : list char_path) :
  count_extractable skip_existing fs c (p :: occs)
  = (if extractable skip_existing fs c p then 1 else 0)
    + count_extractable skip_existing fs c occs.
Proof.
  unfold count_extractable. rewrite filter_cons.
  destruct (extractable skip_existing fs c p); by case_decide.
Qed.

(** Writing a file does not change which of the other occurrences are
    extractable. *)
Lemma count_extractable_write (skip_existing : bool) (fs : gset char_path)
    (c : string) (p : char_path) (occs : list char_path) :
  p ∉ occs →
  count_extractable skip_existing ({[p]} ∪ fs) c occs
  = count_extractable skip_existing fs c occs.
Proof.
  induction occs as [|q occs IH]; intros Hp; [done|].
  apply not_elem_of_cons in Hp as [Hpq Hp].
  rewrite !count_extractable_cons, IH by done. f_equal.
  unfold extractable.
  assert (bool_decide (q ∈ ({[p]} ∪ fs : gset char_path)) = bool_decide (q ∈ fs))
    as ->.
  { apply bool_decide_ext. rewrite elem_of_union, elem_of_singleton.
    intuition congruence. }
  done.
Qed.

Lemma count_extractable_Permutation (skip_existing : bool) (fs : gset char_path)
    (c : string) (occs1 occs2 : list char_path) :
  occs1 ≡ₚ occs2 →
  count_extractable skip_existing fs c occs1
  = count_extractable skip_existing fs c occs2.
Proof. unfold count_extractable. by intros ->. Qed.

Lemma foldr_min_le (l : list nat) (y x : nat) :
  x ∈ y :: l → foldr Nat.min y l ≤ x.
Proof.
  induction l as [|z l IH]; simpl; intros Hx.
  - apply list_elem_of_singleton in Hx. lia.
  - assert (x = z ∨ x ∈ y :: l) as [Hz|Hin].
    { rewrite !elem_of_cons in Hx. rewrite elem_of_cons. tauto. }
    + lia.
    + specialize (IH Hin). lia.
Qed.

Lemma list_min_le (l : list nat) (m x : nat) :
  list_min l = Some m → x ∈ l → m ≤ x.
Proof.
  destruct l as [|y l]; [done|]. simpl. intros [= <-]. apply foldr_min_le.
Qed.

Lemma dist_min_le (d : gmap string nat) (m : nat) (c : string) (n : nat) :
  dist_min d = Some m → d !! c = Some n → m ≤ n.
Proof.
  intros Hm Hc. eapply list_min_le; [exact Hm|].
  apply list_elem_of_fmap. exists (c, n). split; [done|].
  by apply elem_of_map_to_list.
Qed.

Lemma dist_min_is_Some (d : gmap string nat) (c : string) :
  is_Some (d !! c) → is_Some (dist_min d).
Proof.
  intros [n Hn]. unfold dist_min.
  apply elem_of_map_to_list in Hn.
  destruct (map_to_list d) as [|x l]; [by apply elem_of_nil in Hn|].
  simpl. eauto.
Qed.

Lemma init_distribution_lookup (classes : list string) (c : string) :
  init_distribution classes !! c = if decide (c ∈ classes) then Some 0 else None.
Proof.
  unfold init_distribution.
  assert (Hgen : ∀ (m : gmap string nat),
    foldl (λ d c, <[c:=0]> d) m classes !! c
    = if decide (c ∈ classes) then Some 0 else m !! c).
  { induction classes as [|x l IH]; intros m; simpl.
    - done.
    - rewrite IH. destruct (decide (c ∈ l)) as [Hl|Hl].
      + rewrite decide_True; [done|by right].
      + destruct (decide (c = x)) as [->|Hne].
        * rewrite lookup_insert_eq. rewrite decide_True; [done|by left].
        * rewrite lookup_insert_ne by done.
          rewrite decide_False; [done|]. by intros [?|?]%elem_of_cons. }
  by rewrite Hgen, lookup_empty.
Qed.

Section Extraction.
Variables (N_max : nat) (skip_existing imwrite_rejects_empty : bool).

(** No step of the inner loop lifts a count above [N_max]. *)
Lemma extract_chars_bounded (img_exists : bool) (i : nat) (chars : list ascii) :
  ∀ (k : nat) (d d' : gmap string nat) (fs fs' : gset char_path),
    (∀ c n, d !! c = Some n → n ≤ N_max) →
    extract_chars N_max skip_existing imwrite_rejects_empty img_exists i k chars d fs
    = ok (d', fs') →
    ∀ c n, d' !! c = Some n → n ≤ N_max.
Proof.
  induction chars as [|ch rest IH]; intros k d d' fs fs' Hd Hrun; simpl in Hrun.
  { by injection Hrun as <- <-. }
  destruct (d !! char_str ch) as [m|] eqn:Hm;
    [|by eapply IH; [|exact Hrun]].
  destruct (N_max <=? m) eqn:Hfull; [by eapply IH; [|exact Hrun]|].
  assert (Hinc : ∀ c n, <[char_str ch := S m]> d !! c = Some n → n ≤ N_max).
  { intros c n. apply Nat.leb_gt in Hfull.
    destruct (decide (char_str ch = c)) as [<-|Hne].
    - rewrite lookup_insert_eq. intros [= <-]. lia.
    - rewrite lookup_insert_ne by done. apply Hd. }
  destruct_if_in Hrun; [by eapply IH; [|exact Hrun]|].
  destruct img_exists; [by eapply IH; [|exact Hrun]|].
  destruct imwrite_rejects_empty; [done|].
  by eapply IH; [|exact Hrun].
Qed.

Lemma extract_images_bounded (corpus : list gt_entry) (order : list nat) :
  ∀ (d d' : gmap string nat) (fs fs' : gset char_path),
    (∀ c n, d !! c = Some n → n ≤ N_max) →
    extract_images N_max skip_existing imwrite_rejects_empty corpus order d fs
    = ok (d', fs') →
    ∀ c n, d' !! c = Some n → n ≤ N_max.
Proof.
  induction order as [|i rest IH]; intros d d' fs fs' Hd Hrun; simpl in Hrun.
  { by injection Hrun as <- <-. }
  destruct (dist_min d) as [m|]; [|done].
  destruct (N_max <=? m); [by injection Hrun as <- <-|].
  destruct (corpus !! i) as [e|]; [|done].
  destruct (extract_chars _ _ _ _ _ _ _ _ _) as [err|[d1 fs1]] eqn:Hinner; [done|].
  simpl in Hrun. eapply IH; [|exact Hrun].
  by eapply extract_chars_bounded.
Qed.

(** With the image on disk, the inner loop returns, every tracked class
    stays tracked, and for each class the count plus the extractable
    occurrences still ahead, capped at [N_max], does not decrease. *)
Lemma extract_chars_progress (i : nat) (chars : list ascii) :
  ∀ (k : nat) (d : gmap string nat) (fs : gset char_path)
    (later : list char_path),
    NoDup (occs_from i k chars ++ later) →
    ∃ d' fs',
      extract_chars N_max skip_existing imwrite_rejects_empty true i k chars d fs
      = ok (d', fs') ∧
      ∀ c n, d !! c = Some n →
        ∃ n', d' !! c = Some n' ∧ n ≤ n' ∧
          N_max `min` (n + count_extractable skip_existing fs c
                             (occs_from i k chars ++ later))
          ≤ N_max `min` (n' + count_extractable skip_existing fs' c later).
Proof.
  induction chars as [|ch rest IH]; intros k d fs later Hnd.
  { exists d, fs. split; [done|]. intros c n Hc. exists n. by repeat split. }
  cbn [occs_from app] in Hnd. apply NoDup_cons in Hnd as [Hfresh Hnd].
  cbn [extract_chars occs_from app].
  set (p := (char_str ch, i, k)) in *.
  (* the steps that leave the state as it is *)
  assert (Hsame :
    (∀ c n, d !! c = Some n → extractable skip_existing fs c p = true →
            N_max ≤ n) →
    ∃ d' fs',
      extract_chars N_max skip_existing imwrite_rejects_empty true i (S k) rest d fs
      = ok (d', fs') ∧
      ∀ c n, d !! c = Some n →
        ∃ n', d' !! c = Some n' ∧ n ≤ n' ∧
          N_max `min` (n + count_extractable skip_existing fs c
                             (p :: occs_from i (S k) rest ++ later))
          ≤ N_max `min` (n' + count_extractable skip_existing fs' c later)).
  { intros Hfull. destruct (IH (S k) d fs later Hnd) as (d' & fs' & Hrun & Hcount).
    exists d', fs'. split; [done|]. intros c n Hc.
    destruct (Hcount c n Hc) as (n' & Hn' & Hle & Hmin).
    exists n'. split; [done|]. split; [done|].
    rewrite count_extractable_cons.
    destruct (extractable skip_existing fs c p) eqn:Hext; [|simpl; lia].
    specialize (Hfull c n Hc Hext). lia. }
  destruct (d !! char_str ch) as [m|] eqn:Hm.
  2: { apply Hsame. intros c n Hc Hext. unfold extractable in Hext.
       apply andb_true_iff in Hext as [Heq _].
       apply bool_decide_eq_true in Heq. simpl in Heq. congruence. }
  destruct (N_max <=? m) eqn:Hfull.
  { apply Hsame. intros c n Hc Hext. unfold extractable in Hext.
    apply andb_true_iff in Hext as [Heq _].
    apply bool_decide_eq_true in Heq. simpl in Heq. subst c.
    apply Nat.leb_le in Hfull. congruence. }
  destruct_if_goal Hskip.
  { apply Hsame. intros c n Hc Hext. unfold extractable in Hext.
    apply andb_true_iff in Hext as [_ Hno]. by rewrite Hskip in Hno. }
  (* the step that writes the file and counts it *)
  apply Nat.leb_gt in Hfull.
  destruct (IH (S k) (<[char_str ch := S m]> d) ({[p]} ∪ fs) later Hnd)
    as (d' & fs' & Hrun & Hcount).
  exists d', fs'. split; [done|]. intros c n Hc.
  rewrite count_extractable_cons.
  rewrite <- (count_extractable_write skip_existing fs c p _ Hfresh).
  destruct (decide (char_str ch = c)) as [<-|Hne].
  - assert (n = m) as -> by congruence.
    destruct (Hcount (char_str ch) (S m)) as (n' & Hn' & Hle & Hmin).
    { apply lookup_insert_eq. }
    exists n'. split; [done|]. split; [lia|].
    unfold p, char_path in *.
    destruct (extractable skip_existing fs (char_str ch) _); lia.
  - destruct (Hcount c n) as (n' & Hn' & Hle & Hmin).
    { by rewrite lookup_insert_ne. }
    exists n'. split; [done|]. split; [done|].
    assert (extractable skip_existing fs c p = false) as ->.
    { unfold extractable. rewrite bool_decide_eq_false_2; done. }
    unfold p, char_path in *. simpl. lia.
Qed.

Lemma extract_images_progress (corpus : list gt_entry) (order : list nat) :
  Forall (λ e, entry_img_exists e = true) corpus →
  ∀ (d : gmap string nat) (fs : gset char_path),
    Forall (λ i, i < length corpus) order →
    NoDup (order ≫= entry_occurrences corpus) →
    (∃ c, is_Some (d !! c)) →
    ∃ d' fs',
      extract_images N_max skip_existing imwrite_rejects_empty corpus order d fs
      = ok (d', fs') ∧
      ∀ c n, d !! c = Some n →
        ∃ n', d' !! c = Some n' ∧ n ≤ n' ∧
          N_max `min` (n + count_extractable skip_existing fs c
                             (order ≫= entry_occurrences corpus)) ≤ n'.
Proof.
  intros Himg.
  induction order as [|i rest IH]; intros d fs Hidx Hnd Htracked.
  { exists d, fs. split; [done|]. intros c n Hc. exists n.
    split; [done|]. split; [lia|]. unfold count_extractable. simpl. lia. }
  apply Forall_cons in Hidx as [Hi Hidx].
  rewrite bind_cons in Hnd |- *. cbn [extract_images].
  destruct Htracked as [c0 Hc0].
  destruct (dist_min_is_Some d c0 Hc0) as [m Hm]. rewrite Hm.
  destruct (N_max <=? m) eqn:Hfull.
  { apply Nat.leb_le in Hfull. exists d, fs. split; [done|].
    intros c n Hc. exists n. split; [done|].
    pose proof (dist_min_le d m c n Hm Hc). split; lia. }
  destruct (lookup_lt_is_Some_2 corpus i Hi) as [e He].
  unfold entry_occurrences at 1 in Hnd. unfold entry_occurrences at 1.
  rewrite He in Hnd |- *.
  rewrite (Forall_lookup_1 _ _ _ _ Himg He).
  rewrite occurrences_of_occs_from in Hnd |- *.
  destruct (extract_chars_progress i (list_ascii_of_string (entry_txt e)) 0 d fs
              (rest ≫= entry_occurrences corpus) Hnd)
    as (d1 & fs1 & Hrun1 & Hcount1).
  rewrite Hrun1. cbn [rbind].
  apply NoDup_app in Hnd as (_ & _ & Hnd).
  destruct (IH d1 fs1 Hidx Hnd) as (d' & fs' & Hrun & Hcount).
  { destruct Hc0 as [n0 Hn0]. destruct (Hcount1 c0 n0 Hn0) as (n1 & Hn1 & _).
    exists c0. eauto. }
  exists d', fs'. split; [done|]. intros c n Hc.
  destruct (Hcount1 c n Hc) as (n1 & Hn1 & Hle1 & Hmin1).
  destruct (Hcount c n1 Hn1) as (n' & Hn' & Hle & Hmin).
  exists n'. split; [done|]. split; lia.
Qed.

End Extraction.



Example genBalancedCharDataset_run :
  match genBalancedCharDataset 2 small_corpus ∅ true ["a"; "b"] true [1; 0; 2] with
  | inr (d, fs') =>
      d !! "a" = Some 2 ∧ d !! "b" = Some 2 ∧ d !! "x" = None ∧
      bool_decide (("b", 1, 0) ∈ fs') = true ∧
      bool_decide (("a", 2, 0) ∈ fs') = false
  | inl _ => False
  end.
Proof. by vm_compute. Qed.

(** * Further properties *)

(** ** filter_BBs: errors, validity of the output, ignored labels *)

(** The loop raises exactly when a retained box has no label at its
    index, and then the exception is [IndexError]. *)
Lemma filter_BBs_loop_raise (img_w img_h : Q) (gts : list pyval) (BBs : list Quad) :
  ∀ (i : nat) (skip_mask : list bool) (correct_gts : list pyval) (e : exn),
    filter_BBs_loop img_w img_h gts i BBs skip_mask correct_gts = raise e ↔
    e = IndexError ∧
    ∃ j BB, BBs !! j = Some BB ∧ keep_BB img_w img_h BB = true ∧
            length gts ≤ i + j.
Proof.
  induction BBs as [|BB rest IH]; intros i skip_mask correct_gts e; simpl.
  { split; [done|]. by intros (_ & j & BB & Hj & _). }
  destruct (keep_BB img_w img_h BB) eqn:Hk.
  - unfold getitem. destruct (gts !! i) as [g|] eqn:Hg; simpl.
    + rewrite IH. apply lookup_lt_Some in Hg.
      split; intros (-> & j & BB' & Hj & Hk' & Hlen); (split; [done|]).
      * exists (S j), BB'. repeat split; [done..|lia].
      * destruct j as [|j]; [lia|]. exists j, BB'. repeat split; [done..|lia].
    + apply lookup_ge_None in Hg. split.
      * intros [= <-]. split; [done|]. exists 0, BB. repeat split; [done..|lia].
      * by intros (-> & _).
  - rewrite IH.
    split; intros (-> & j & BB' & Hj & Hk' & Hlen); (split; [done|]).
    + exists (S j), BB'. repeat split; [done..|lia].
    + destruct j as [|j]; [simpl in Hj; congruence|].
      exists j, BB'. repeat split; [done..|lia].
Qed.

(** X1: [filter_BBs] raises exactly when some retained box sits at an
    index beyond the label list, and the exception is then [IndexError];
    rejected boxes beyond the label list do no harm. *)
Theorem filter_BBs_raises_iff
    (BBs : list Quad) (gts : list pyval) (img_wh : Q * Q) (e : exn) :
  filter_BBs BBs gts img_wh = raise e ↔
  e = IndexError ∧
  ∃ j BB, BBs !! j = Some BB ∧ keep_BB img_wh.1 img_wh.2 BB = true ∧
          length gts ≤ j.
Proof.
  destruct img_wh as [img_w img_h]. unfold filter_BBs. simpl.
  rewrite <- (filter_BBs_loop_raise img_w img_h gts BBs 0 [] [] e).
  destruct (filter_BBs_loop img_w img_h gts 0 BBs [] []) as [e'|[m g]]; simpl;
    split; (done || by intros [= ->]).
Qed.

(** X2: whenever [filter_BBs] returns, every returned box has its
    containing rectangle's bottom-right corner strictly inside the image
    and a width and height above 1, and there are as many labels as boxes. *)
Theorem filter_BBs_output_valid
    (BBs BBs' : list Quad) (gts gts' : list pyval) (img_w img_h : Q) :
  filter_BBs BBs gts (img_w, img_h) = ok (BBs', gts') →
  length BBs' = length gts' ∧
  Forall (λ BB, ((rect_br BB).1 < img_w ∧ (rect_br BB).2 < img_h ∧
                 1 < (rect_wh BB).1 ∧ 1 < (rect_wh BB).2)%Q) BBs'.
Proof.
  intros Hout. unfold filter_BBs in Hout.
  destruct (filter_BBs_loop img_w img_h gts 0 BBs [] []) as [e|[m g]] eqn:Hrun;
    [done|].
  simpl in Hout. injection Hout as <- <-.
  apply filter_BBs_loop_inv in Hrun as [-> Hg]. simpl in Hg.
  rewrite app_nil_l, mask_select_keep. split; [done|].
  eapply Forall_impl; [apply Forall_filter_keep|].
  intros BB HBB. by apply keep_BB_iff.
Qed.

Lemma filter_BBs_output_valid_witness :
  length [inner_box; inner_box] = length [PyStr "A"; PyNone] ∧
  Forall (λ BB, ((rect_br BB).1 < 10 ∧ (rect_br BB).2 < 10 ∧
                 1 < (rect_wh BB).1 ∧ 1 < (rect_wh BB).2)%Q)
         [inner_box; inner_box].
Proof.
  apply (filter_BBs_output_valid [inner_box; edge_box; thin_box; inner_box] _
           [PyStr "A"; PyStr "b"; PyStr "C"; PyNone]).
  by vm_compute.
Defined.

(** X3: labels beyond the number of boxes are never read. *)
Theorem filter_BBs_extra_labels_ignored
    (BBs : list Quad) (gts : list pyval) (img_wh : Q * Q) :
  length BBs ≤ length gts →
  filter_BBs BBs gts img_wh = filter_BBs BBs (take (length BBs) gts) img_wh.
Proof.
  intros Hlen.
  rewrite (filter_BBs_ok BBs gts) by done.
  rewrite (filter_BBs_ok BBs (take (length BBs) gts))
    by (rewrite length_take; lia).
  unfold kept_pairs. by rewrite zip_with_take_r.
Qed.

Lemma filter_BBs_extra_labels_ignored_witness :
  filter_BBs [inner_box; thin_box] [PyStr "A"; PyStr "b"; PyStr "C"] (10, 10)%Q
  = filter_BBs [inner_box; thin_box] [PyStr "A"; PyStr "b"] (10, 10)%Q.
Proof.
  apply (filter_BBs_extra_labels_ignored [inner_box; thin_box]
           [PyStr "A"; PyStr "b"; PyStr "C"] (10, 10)%Q).
  simpl. lia.
Defined.

Lemma Qmaxb_plus (a b d : Q) : Qmaxb (a + d) (b + d) = (Qmaxb a b + d)%Q.
Proof.
  unfold Qmaxb.
  destruct (Qle_bool a b) eqn:Hab, (Qle_bool (a + d) (b + d)) eqn:Habd; try done.
  - apply Qle_bool_iff in Hab. apply Qle_bool_false_lt in Habd. lra.
  - apply Qle_bool_iff in Habd. apply Qle_bool_false_lt in Hab. lra.
Qed.

Lemma Qminb_plus (a b d : Q) : Qminb (a + d) (b + d) = (Qminb a b + d)%Q.
Proof.
  unfold Qminb.
  destruct (Qle_bool a b) eqn:Hab, (Qle_bool (a + d) (b + d)) eqn:Habd; try done.
  - apply Qle_bool_iff in Hab. apply Qle_bool_false_lt in Habd. lra.
  - apply Qle_bool_iff in Habd. apply Qle_bool_false_lt in Hab. lra.
Qed.

Lemma get_containing_rect_translate (dx dy : Q) (BB : Quad) :
  get_containing_rect (translate_quad dx dy BB)
  = let '(tl, tr, br, bl) := get_containing_rect BB in
    (translate_point dx dy tl, translate_point dx dy tr,
     translate_point dx dy br, translate_point dx dy bl).
Proof.
  unfold get_containing_rect, translate_quad, translate_point, min4, max4. simpl.
  by rewrite !Qmaxb_plus, !Qminb_plus.
Qed.

(** X4: the filter has no lower bound: a retained box stays retained when
    it is moved up or to the left by any amount, also past the image's
    top-left corner into negative coordinates. *)
Theorem filter_BBs_no_lower_bound (img_w img_h dx dy : Q) (BB : Quad) :
  (dx <= 0)%Q → (dy <= 0)%Q →
  keep_BB img_w img_h BB = true →
  keep_BB img_w img_h (translate_quad dx dy BB) = true.
Proof.
  intros Hdx Hdy. rewrite !keep_BB_iff. unfold rect_br, rect_wh.
  rewrite get_containing_rect_translate.
  destruct (get_containing_rect BB) as [[[tl tr] br] bl]. simpl.
  intros (Hx & Hy & Hw & Hh). repeat split; lra.
Qed.

Lemma filter_BBs_no_lower_bound_witness :
  keep_BB 10 10 (translate_quad (-4) (-7) inner_box) = true.
Proof.
  apply (filter_BBs_no_lower_bound 10 10 (-4) (-7) inner_box); by vm_compute.
Defined.

(** ** shuffle_in_unison and BB_augment: structure of the result *)

Section AugmentStructure.
Context {St : Type} `{!RandomState St}.

Lemma length_np_shuffle {A} (st : St) (x : list A) :
  length (np_shuffle st x).1 = length x.
Proof. apply Permutation_length, np_shuffle_Permutation. Qed.

Lemma shuffle_in_unison_zip {A B} (a : list A) (b : list B) (st : St) :
  length a = length b →
  zip (shuffle_in_unison a b st).1.1 (shuffle_in_unison a b st).1.2 ≡ₚ zip a b.
Proof.
  intros Hlen.
  pose proof (np_shuffle_fmap fst st (zip a b)) as Hfst.
  pose proof (np_shuffle_fmap snd st (zip a b)) as Hsnd.
  rewrite fst_zip in Hfst by lia. rewrite snd_zip in Hsnd by lia.
  unfold shuffle_in_unison.
  destruct (np_shuffle st a) as [a' sta], (np_shuffle st b) as [b' stb].
  simpl. injection Hfst as -> _. injection Hsnd as -> _.
  rewrite zip_fst_snd. apply np_shuffle_Permutation.
Qed.

Lemma shuffle_in_unison_each {A B} (a : list A) (b : list B) (st : St) :
  (shuffle_in_unison a b st).1.1 ≡ₚ a ∧ (shuffle_in_unison a b st).1.2 ≡ₚ b.
Proof.
  unfold shuffle_in_unison.
  pose proof (np_shuffle_Permutation st a). pose proof (np_shuffle_Permutation st b).
  destruct (np_shuffle st a) as [a' sta], (np_shuffle st b) as [b' stb]. done.
Qed.

Lemma clip_range (x hi : Q) : (0 <= hi)%Q → (0 <= clip x 0 hi ∧ clip x 0 hi <= hi)%Q.
Proof.
  intros Hhi. unfold clip, Qminb, Qmaxb.
  destruct (Qle_bool x 0) eqn:Hx0.
  - destruct (Qle_bool hi 0) eqn:Hh; [lra|].
    apply Qle_bool_false_lt in Hh. lra.
  - apply Qle_bool_false_lt in Hx0.
    destruct (Qle_bool hi x) eqn:Hh.
    + lra.
    + apply Qle_bool_false_lt in Hh. lra.
Qed.

Lemma perturb_BB_in_image (BB : Quad) (noise_x noise_y : Q * Q * Q * Q)
    (img_wh : Q * Q) :
  (0 <= img_wh.1)%Q → (0 <= img_wh.2)%Q →
  in_image img_wh (perturb_BB BB noise_x noise_y img_wh).
Proof.
  intros HW HH. unfold perturb_BB, signed_noise.
  destruct noise_x as [[[x0 x1] x2] x3], noise_y as [[[y0 y1] y2] y3].
  unfold in_image, point_in_image, perturb_point. simpl.
  repeat split; (by apply clip_range).
Qed.

(** The loop body returns the box itself or a perturbed copy of it. *)
Lemma augment_BB_cases (BB : Quad) (img_wh : Q * Q)
    (expand_coeff contract_coeff : Q) (st : St) :
  (augment_BB BB img_wh expand_coeff contract_coeff st).1 = BB ∨
  ∃ noise_x noise_y,
    (augment_BB BB img_wh expand_coeff contract_coeff st).1
    = perturb_BB BB noise_x noise_y img_wh.
Proof.
  unfold augment_BB.
  destruct (draw_noise BB expand_coeff contract_coeff st) as [[nx ny] st'].
  destruct (get_width_height BB) as [w h].
  destruct (negb (Qle_bool w 1) && negb (Qle_bool h 1)); simpl; eauto.
Qed.

(** With a label for every box the perturbation loop returns; it keeps the
    number and order of the boxes and leaves alone every box whose label
    is not truthy. *)
Lemma augment_loop_ok (gts : list pyval) (img_wh : Q * Q)
    (expand_coeff contract_coeff : Q) (charBBs : list Quad) :
  ∀ (i : nat) (st : St),
    i + length charBBs ≤ length gts →
    ∃ out st',
      augment_loop gts img_wh expand_coeff contract_coeff i charBBs st
      = (ok out, st') ∧
      Forall2 (augmented_from img_wh) charBBs out ∧
      ∀ j BB g, charBBs !! j = Some BB → gts !! (i + j) = Some g →
                truthy g = false → out !! j = Some BB.
Proof.
  induction charBBs as [|BB rest IH]; intros i st Hlen; simpl in *.
  { exists [], st. repeat split; [constructor|]. intros j BB g Hj. done. }
  destruct (lookup_lt_is_Some_2 gts i ltac:(lia)) as [g Hg].
  rewrite (getitem_lookup _ _ _ Hg). simpl.
  destruct (if truthy g
            then augment_BB BB img_wh expand_coeff contract_coeff st
            else (BB, st)) as [BB' st1] eqn:Hbody.
  destruct (IH (S i) st1 ltac:(lia)) as (out & st' & Hrun & Hrel & Hfalsy).
  rewrite Hrun. simpl. exists (BB' :: out), st'.
  split; [done|]. split.
  - constructor; [|done]. destruct (truthy g).
    + pose proof (augment_BB_cases BB img_wh expand_coeff contract_coeff st) as Hc.
      rewrite Hbody in Hc. exact Hc.
    + injection Hbody as <- _. by left.
  - intros [|j] BB0 g0 Hj Hg0 Hf; simpl in *.
    + injection Hj as <-. rewrite Nat.add_0_r in Hg0.
      assert (g0 = g) as -> by congruence.
      rewrite Hf in Hbody. by injection Hbody as <- _.
    + eapply Hfalsy; [done| |done].
      by replace (S (i + j)) with (i + S j) by lia.
Qed.

Lemma slice_to_opt_effective {A} (l : list A) (batch_size_limit : option Z) :
  slice_to_opt l
    match batch_size_limit with
    | None => None
    | Some lim => if (lim <=? 0)%Z then None else Some lim
    end
  = take (effective_limit batch_size_limit (length l)) l.
Proof.
  unfold effective_limit. destruct batch_size_limit as [lim|]; simpl.
  - destruct (lim <=? 0)%Z eqn:Hl; simpl.
    + by rewrite take_ge.
    + unfold slice_to. apply Z.leb_gt in Hl.
      rewrite (proj2 (Z.leb_le 0 lim)) by lia.
      destruct (decide (length l ≤ Z.to_nat lim)).
      * rewrite Nat.min_l by done. by rewrite !take_ge by lia.
      * by rewrite Nat.min_r by lia.
  - by rewrite take_ge.
Qed.

(** The route without negative sampling: shuffle (or not), truncate,
    perturb. *)
Lemma BB_augment_plain (charBBs : list Quad) (wordBBs : option (list Quad))
    (gts : list pyval) (img_wh : Q * Q) (shuffle : bool)
    (batch_size_limit : option Z)
    (fraction_nonchar expand_coeff contract_coeff : Q) (st : St) :
  length charBBs = length gts →
  let n := effective_limit batch_size_limit (length gts) in
  let '(BBs0, gts0, st0) :=
    if shuffle then shuffle_in_unison charBBs gts st else (charBBs, gts, st) in
  ∃ out st',
    BB_augment charBBs wordBBs gts img_wh false shuffle batch_size_limit
      fraction_nonchar expand_coeff contract_coeff st
    = (ok (out, take n gts0), st') ∧
    Forall2 (augmented_from img_wh) (take n BBs0) out ∧
    ∀ j BB g, take n BBs0 !! j = Some BB → take n gts0 !! j = Some g →
              truthy g = false → out !! j = Some BB.
Proof.
  intros Hlen n.
  destruct (if shuffle then shuffle_in_unison charBBs gts st else (charBBs, gts, st))
    as [[BBs0 gts0] st0] eqn:Hsh.
  assert (Hlens : length BBs0 = length charBBs ∧ length gts0 = length gts).
  { destruct shuffle.
    - pose proof (shuffle_in_unison_each charBBs gts st) as [Ha Hb].
      rewrite Hsh in Ha, Hb. simpl in *.
      split; by apply Permutation_length.
    - by injection Hsh as <- <- _. }
  destruct Hlens as [HlB Hlg].
  destruct (augment_loop_ok (take n gts0) img_wh expand_coeff contract_coeff
              (take n BBs0) 0 st0) as (out & st' & Hrun & Hrel & Hfalsy).
  { rewrite !length_take. lia. }
  exists out, st'. split; [|by split].
  unfold BB_augment.
  assert (Hnorm :
    match batch_size_limit with
    | None => (Z.of_nat (length gts), None)
    | Some lim =>
        if (lim <=? 0)%Z then (Z.of_nat (length gts), None)
        else (Z.min (Z.of_nat (length gts)) lim, Some lim)
    end
    = (match batch_size_limit with
       | None => Z.of_nat (length gts)
       | Some lim => if (lim <=? 0)%Z then Z.of_nat (length gts)
                     else Z.min (Z.of_nat (length gts)) lim
       end,
       match batch_size_limit with
       | None => None
       | Some lim => if (lim <=? 0)%Z then None else Some lim
       end)).
  { destruct batch_size_limit as [lim|]; [|done]. by destruct (lim <=? 0)%Z. }
  rewrite Hnorm.
  assert (Hshuffled :
    (if shuffle then ok (shuffle_in_unison charBBs gts st)
     else ok (charBBs, gts, st)) = (ok (BBs0, gts0, st0) : result _)).
  { destruct shuffle; by rewrite <- Hsh. }
  rewrite Hshuffled. unfold ok in *. cbv beta iota.
  rewrite !slice_to_opt_effective. rewrite HlB, Hlen, Hlg.
  fold n. by rewrite Hrun.
Qed.

End AugmentStructure.

(** ** shuffle_in_unison and BB_augment: what a caller can rely on *)

Lemma effective_limit_le (batch_size_limit : option Z) (len : nat) :
  effective_limit batch_size_limit len ≤ len.
Proof.
  unfold effective_limit. destruct batch_size_limit as [lim|]; [|done].
  destruct (lim <=? 0)%Z; lia.
Qed.

(** X5: whatever the two lengths, [shuffle_in_unison] only reorders: each
    sequence comes back as a permutation of itself, with its length. *)
Theorem shuffle_in_unison_reorders {St : Type} `{!RandomState St} {A B : Type}
    (a : list A) (b : list B) (st : St) :
  (shuffle_in_unison a b st).1.1 ≡ₚ a ∧
  (shuffle_in_unison a b st).1.2 ≡ₚ b ∧
  length (shuffle_in_unison a b st).1.1 = length a ∧
  length (shuffle_in_unison a b st).1.2 = length b.
Proof.
  destruct (shuffle_in_unison_each a b st) as [Ha Hb].
  repeat split; try done; by apply Permutation_length.
Qed.

Lemma BB_augment_plain_lengths {St : Type} `{!RandomState St}
    (charBBs : list Quad) (wordBBs : option (list Quad)) (gts : list pyval)
    (img_wh : Q * Q) (shuffle : bool) (batch_size_limit : option Z)
    (fraction_nonchar expand_coeff contract_coeff : Q) (st : St) :
  length charBBs = length gts →
  ∃ BBs' gts' st',
    BB_augment charBBs wordBBs gts img_wh false shuffle batch_size_limit
      fraction_nonchar expand_coeff contract_coeff st
    = (ok (BBs', gts'), st') ∧
    length BBs' = effective_limit batch_size_limit (length gts) ∧
    length gts' = effective_limit batch_size_limit (length gts) ∧
    gts' ⊆+ gts.
Proof.
  intros Hlen.
  pose proof (BB_augment_plain charBBs wordBBs gts img_wh shuffle batch_size_limit
                fraction_nonchar expand_coeff contract_coeff st Hlen) as Hplain.
  pose proof (effective_limit_le batch_size_limit (length gts)) as Hle.
  simpl in Hplain.
  destruct (if shuffle then shuffle_in_unison charBBs gts st else (charBBs, gts, st))
    as [[BBs0 gts0] st0] eqn:Hsh.
  destruct Hplain as (out & st' & Hrun & Hrel & _).
  assert (Hperm : BBs0 ≡ₚ charBBs ∧ gts0 ≡ₚ gts).
  { destruct shuffle.
    - pose proof (shuffle_in_unison_each charBBs gts st) as [Ha Hb].
      by rewrite Hsh in Ha, Hb.
    - by injection Hsh as <- <- _. }
  destruct Hperm as [HpB Hpg].
  exists out, (take (effective_limit batch_size_limit (length gts)) gts0), st'.
  split; [done|].
  apply Forall2_length in Hrel. rewrite length_take in Hrel.
  rewrite length_take.
  rewrite (Permutation_length HpB) in Hrel. rewrite (Permutation_length Hpg).
  repeat split; [lia|lia|].
  etrans; [apply submseteq_take|by apply Permutation_submseteq].
Qed.

(** X6: without negative sampling and with a label for every box,
    [BB_augment] does not raise; it returns equally many boxes and labels,
    all of them when the limit is [None], zero or negative and at most
    [batch_size_limit] of them otherwise, and the returned labels are taken
    from the input labels. *)
Theorem BB_augment_returns {St : Type} `{!RandomState St}
    (charBBs : list Quad) (wordBBs : option (list Quad)) (gts : list pyval)
    (img_wh : Q * Q) (shuffle : bool) (batch_size_limit : option Z)
    (fraction_nonchar expand_coeff contract_coeff : Q) (st : St) :
  length charBBs = length gts →
  ∃ BBs' gts' st',
    BB_augment charBBs wordBBs gts img_wh false shuffle batch_size_limit
      fraction_nonchar expand_coeff contract_coeff st
    = (ok (BBs', gts'), st') ∧
    length BBs' = effective_limit batch_size_limit (length gts) ∧
    length gts' = effective_limit batch_size_limit (length gts) ∧
    gts' ⊆+ gts.
Proof. apply BB_augment_plain_lengths. Qed.

Lemma BB_augment_returns_witness :
  ∃ BBs' gts' st',
    BB_augment [inner_box; edge_box; thin_box] None [PyNone; PyStr ""; PyInt 0]
      (10, 10)%Q false true (Some 2%Z) (1 # 10) (2 # 10) (2 # 10) [3; 4; 9]
    = (ok (BBs', gts'), st') ∧
    length BBs' = 2 ∧ length gts' = 2 ∧ gts' ⊆+ [PyNone; PyStr ""; PyInt 0].
Proof.
  apply (BB_augment_returns (St:=list nat) [inner_box; edge_box; thin_box] None
           [PyNone; PyStr ""; PyInt 0] (10, 10)%Q true (Some 2%Z)).
  reflexivity.
Defined.

(** X7: boxes whose label is not truthy ([None], the empty string) are
    never perturbed: every returned (box, label) pair with such a label is
    one of the input pairs, bit for bit. *)
Theorem BB_augment_sentinel_untouched {St : Type} `{!RandomState St}
    (charBBs : list Quad) (wordBBs : option (list Quad)) (gts : list pyval)
    (img_wh : Q * Q) (shuffle : bool) (batch_size_limit : option Z)
    (fraction_nonchar expand_coeff contract_coeff : Q) (st : St) :
  length charBBs = length gts →
  ∃ BBs' gts' st',
    BB_augment charBBs wordBBs gts img_wh false shuffle batch_size_limit
      fraction_nonchar expand_coeff contract_coeff st
    = (ok (BBs', gts'), st') ∧
    ∀ j BB' g', BBs' !! j = Some BB' → gts' !! j = Some g' →
                truthy g' = false → (BB', g') ∈ zip charBBs gts.
Proof.
  intros Hlen.
  pose proof (BB_augment_plain charBBs wordBBs gts img_wh shuffle batch_size_limit
                fraction_nonchar expand_coeff contract_coeff st Hlen) as Hplain.
  simpl in Hplain.
  destruct (if shuffle then shuffle_in_unison charBBs gts st else (charBBs, gts, st))
    as [[BBs0 gts0] st0] eqn:Hsh.
  destruct Hplain as (out & st' & Hrun & Hrel & Hfalsy).
  assert (Hzip : zip BBs0 gts0 ≡ₚ zip charBBs gts).
  { destruct shuffle.
    - pose proof (shuffle_in_unison_zip charBBs gts st Hlen) as Hz.
      by rewrite Hsh in Hz.
    - by injection Hsh as <- <- _. }
  eexists _, _, _. split; [exact Hrun|].
  intros j BB' g' HBB' Hg' Hf.
  destruct (Forall2_lookup_r _ _ _ _ _ Hrel HBB') as (BB0 & HBB0 & _).
  pose proof (Hfalsy j BB0 g' HBB0 Hg' Hf) as Hsame.
  assert (BB' = BB0) as -> by congruence.
  rewrite <- Hzip. apply list_elem_of_lookup. exists j.
  apply lookup_zip_with_Some. exists BB0, g'.
  apply lookup_take_Some in HBB0 as [? _]. apply lookup_take_Some in Hg' as [? _].
  done.
Qed.

Lemma BB_augment_sentinel_untouched_witness :
  ∃ BBs' gts' st',
    BB_augment [big_box; small_box] None [PyStr "A"; PyNone]
      (1000, 1000)%Q false true None (1 # 10) (2 # 10) (2 # 10)
      [1; 896; 896; 896; 896; 896; 896; 896; 896]
    = (ok (BBs', gts'), st') ∧
    ∀ j BB' g', BBs' !! j = Some BB' → gts' !! j = Some g' →
                truthy g' = false →
                (BB', g') ∈ zip [big_box; small_box] [PyStr "A"; PyNone].
Proof.
  apply (BB_augment_sentinel_untouched (St:=list nat) [big_box; small_box] None
           [PyStr "A"; PyNone] (1000, 1000)%Q true None).
  reflexivity.
Defined.

(** X8: for an image of non-negative size, every returned box is either
    one of the input boxes or has all four corners clamped into
    [0, W] x [0, H]. *)
Theorem BB_augment_clamped {St : Type} `{!RandomState St}
    (charBBs : list Quad) (wordBBs : option (list Quad)) (gts : list pyval)
    (img_wh : Q * Q) (shuffle : bool) (batch_size_limit : option Z)
    (fraction_nonchar expand_coeff contract_coeff : Q) (st : St) :
  (0 <= img_wh.1)%Q → (0 <= img_wh.2)%Q →
  length charBBs = length gts →
  ∃ BBs' gts' st',
    BB_augment charBBs wordBBs gts img_wh false shuffle batch_size_limit
      fraction_nonchar expand_coeff contract_coeff st
    = (ok (BBs', gts'), st') ∧
    Forall (λ BB', BB' ∈ charBBs ∨ in_image img_wh BB') BBs'.
Proof.
  intros HW HH Hlen.
  pose proof (BB_augment_plain charBBs wordBBs gts img_wh shuffle batch_size_limit
                fraction_nonchar expand_coeff contract_coeff st Hlen) as Hplain.
  simpl in Hplain.
  destruct (if shuffle then shuffle_in_unison charBBs gts st else (charBBs, gts, st))
    as [[BBs0 gts0] st0] eqn:Hsh.
  destruct Hplain as (out & st' & Hrun & Hrel & _).
  assert (HpB : BBs0 ≡ₚ charBBs).
  { destruct shuffle.
    - pose proof (shuffle_in_unison_each charBBs gts st) as [Ha _].
      by rewrite Hsh in Ha.
    - by injection Hsh as <- _ _. }
  eexists _, _, _. split; [exact Hrun|].
  apply Forall_forall. intros BB' HBB'.
  apply list_elem_of_lookup in HBB' as [j Hj].
  destruct (Forall2_lookup_r _ _ _ _ _ Hrel Hj) as (BB0 & HBB0 & Hfrom).
  destruct Hfrom as [->|(nx & ny & ->)].
  - left. rewrite <- HpB. apply lookup_take_Some in HBB0 as [HBB0 _].
    apply list_elem_of_lookup. eauto.
  - right. by apply perturb_BB_in_image.
Qed.

Lemma BB_augment_clamped_witness :
  ∃ BBs' gts' st',
    BB_augment [big_box; small_box] None [PyStr "A"; PyNone]
      (150, 150)%Q false false None (1 # 10) (2 # 10) (2 # 10)
      [896; 896; 896; 896; 896; 896; 896; 896]
    = (ok (BBs', gts'), st') ∧
    Forall (λ BB', BB' ∈ [big_box; small_box] ∨ in_image (150, 150)%Q BB') BBs'.
Proof.
  apply (BB_augment_clamped (St:=list nat) [big_box; small_box] None
           [PyStr "A"; PyNone] (150, 150)%Q false None); by vm_compute.
Defined.

(** ** BB_augment with negative sampling requested *)








(** ** string_to_onehot: errors, decoding, one-hot rows *)

Lemma dict_foldl_is_Some (items : list pyval) :
  ∀ (n : nat) (m : gmap pyval nat) (c : pyval),
    is_Some (foldl (λ m ic, <[ic.2 := ic.1]> m) m
               (zip (seq n (length items)) items) !! c)
    ↔ c ∈ items ∨ is_Some (m !! c).
Proof.
  induction items as [|y l IH]; intros n m c; simpl.
  - rewrite elem_of_nil. tauto.
  - rewrite IH, elem_of_cons.
    destruct (decide (c = y)) as [->|Hne].
    + rewrite lookup_insert_eq. split; [tauto|]. intros _. right. eauto.
    + rewrite lookup_insert_ne by done. tauto.
Qed.

Lemma dict_of_items_None (items : list pyval) (c : pyval) :
  dict_of_items items !! c = None ↔ c ∉ items.
Proof.
  rewrite eq_None_not_Some. unfold dict_of_items, enumerate.
  rewrite dict_foldl_is_Some, lookup_empty.
  split; [tauto|]. intros Hn [?|[? [=]]]. done.
Qed.

Lemma effective_alphabet_build (alphabet : option alphabet_t) :
  (if alphabet_falsy alphabet then Some (AlphaStr default_alphabet) else alphabet)
  = Some (effective_alphabet alphabet).
Proof.
  unfold effective_alphabet. destruct alphabet as [a0|]; [|done].
  by destruct (alphabet_falsy (Some a0)).
Qed.

(** With an alphabet at hand the encoding of one label returns or raises
    [KeyError]. *)
Lemma encode_char_exn (a : alphabet_t) (d : gmap pyval nat) (label : pyval)
    (e : exn) :
  encode_char (Some a) d label = raise e → e = KeyError.
Proof.
  destruct label as [|s|z]; simpl; unfold dict_get;
    repeat match goal with |- context [?m !! ?k] => destruct (m !! k) end;
    try done; by intros [= <-].
Qed.

Lemma encode_loop_KeyError (a : alphabet_t) (d : gmap pyval nat)
    (P : pyval → Prop) (labels : list pyval) :
  (∀ label, P label → encode_char (Some a) d label = raise KeyError) →
  Exists P labels →
  encode_loop (Some a) d labels = raise KeyError.
Proof.
  intros HP Hex. induction Hex as [label rest Hl|label rest Hex IH]; simpl.
  - by rewrite (HP label Hl).
  - destruct (encode_char (Some a) d label) as [e|j] eqn:Hj; simpl.
    + by rewrite (encode_char_exn _ _ _ _ Hj).
    + by rewrite IH.
Qed.

(** X10: without the sentinel entry ([include_nonchar=False] and an
    alphabet that does not list [None]) any label that falls back to the
    sentinel makes the call raise [KeyError]. *)
Theorem string_to_onehot_KeyError_no_sentinel
    (labels : list pyval) (alphabet : option alphabet_t) (to_onehot : bool) :
  PyNone ∉ alphabet_items (effective_alphabet alphabet) →
  Exists (λ label, falls_back (effective_alphabet alphabet) label = true) labels →
  string_to_onehot labels alphabet None false to_onehot = raise KeyError.
Proof.
  intros Hnone Hex. unfold string_to_onehot, build_char_to_int. simpl.
  rewrite effective_alphabet_build. simpl.
  set (a := effective_alphabet alphabet) in *.
  rewrite (encode_loop_KeyError a _ (λ label, falls_back a label = true)); [done| |done].
  intros label Hfb. apply dict_of_items_None in Hnone.
  destruct label as [|s|z]; simpl in *; unfold dict_get; try by rewrite Hnone.
  apply andb_true_iff in Hfb as [H1 H2]. rewrite H1. simpl. rewrite H2. simpl.
  by rewrite Hnone.
Qed.

Lemma string_to_onehot_KeyError_no_sentinel_witness :
  string_to_onehot [PyStr "A"; PyStr "1"; PyStr "b"] None None false false
  = raise KeyError.
Proof.
  apply (string_to_onehot_KeyError_no_sentinel [PyStr "A"; PyStr "1"; PyStr "b"]
           None false).
  - apply (bool_decide_unpack _). by vm_compute.
  - apply Exists_cons_tl, Exists_cons_hd. reflexivity.
Defined.














(** ** The sample pipelines: shapes, totality, the batch limit *)

Lemma encode_loop_length (alphabet : option alphabet_t) (d : gmap pyval nat)
    (labels : list pyval) :
  ∀ idx, encode_loop alphabet d labels = ok idx → length idx = length labels.
Proof.
  induction labels as [|label rest IH]; intros idx; simpl.
  { by intros [= <-]. }
  destruct (encode_char alphabet d label) as [e|j]; [done|]. simpl.
  destruct (encode_loop alphabet d rest) as [e|js]; [done|]. simpl.
  intros [= <-]. simpl. f_equal. by apply IH.
Qed.

Lemma string_to_onehot_indices_length (labels : list pyval)
    (alphabet : option alphabet_t) (char_to_int : option (gmap pyval nat))
    (include_nonchar : bool) (t : tensor) :
  string_to_onehot labels alphabet char_to_int include_nonchar false = ok t →
  ∃ idx, t = Indices idx ∧ length idx = length labels.
Proof.
  unfold string_to_onehot.
  destruct (build_char_to_int alphabet char_to_int include_nonchar) as [a d].
  destruct (encode_loop a d labels) as [e|idx] eqn:Henc; [done|]. simpl.
  intros [= <-]. exists idx. split; [done|]. by eapply encode_loop_length.
Qed.


Section PipelineShapes.
Context {St : Type} `{!RandomState St} {Image : Type} `{!ImageOps Image}.

Lemma fill_batch_length (img : Image) (size : nat * nat) (charBBs : list Quad) :
  ∀ (i : nat) (batch batch' : list (list Q)),
    fill_batch img size i charBBs batch = ok batch' →
    length batch' = length batch.
Proof.
  induction charBBs as [|BB rest IH]; intros i batch batch'; simpl.
  { by intros [= <-]. }
  destruct (i <? length batch); [|done].
  intros Hrun. apply IH in Hrun. by rewrite length_insert in Hrun.
Qed.


Lemma sample_boxes_length (cfg : dataset_config) (r : gt_record)
    (wordBBs : option (list Quad)) (st st' : St) (batch : list (list Q))
    (chars : list pyval) :
  sample_boxes cfg r wordBBs st = (ok (batch, chars), st') →
  length batch = length chars.
Proof.
  unfold sample_boxes.
  destruct (filter_BBs _ _ _) as [e|[charBBs chars0]]; [done|].
  destruct (if cfg_augment cfg then _ else _) as [[e|[charBBs1 chars1]] st1];
    [done|].
  destruct (fill_batch _ _ _ _ _) as [e|batch0] eqn:Hfill; [done|].
  simpl. intros [= <- <- <-].
  apply fill_batch_length in Hfill. rewrite Hfill.
  unfold zeros_batch. by rewrite length_replicate.
Qed.



End PipelineShapes.

(** X14: whenever either pipeline returns, the label tensor holds indices
    (not one-hot rows) and has as many entries as the batch has images. *)
Theorem getitem_matching_leading_dimension
    {St : Type} `{!RandomState St} {Image : Type} `{!ImageOps Image}
    (cfg : dataset_config) (r : gt_record) (st st' : St)
    (batch : list (list Q)) (labels : tensor) :
  SynthCharDataset_getitem cfg r st = (ok (batch, labels), st') ∨
  ICDAR2013CharDataset_getitem cfg r st = (ok (batch, labels), st') →
  ∃ idx, labels = Indices idx ∧ length batch = length idx.
Proof.
  intros [Hrun|Hrun].
  - unfold SynthCharDataset_getitem in Hrun.
    destruct (sample_boxes cfg r (rec_wordBBs r) st)
      as [[e|[batch0 chars]] st0] eqn:Hs; [done|].
    simpl in Hrun.
    destruct (string_to_onehot _ _ _ _ _) as [e|t] eqn:Ht; [done|].
    simpl in Hrun. injection Hrun as <- <- <-.
    apply string_to_onehot_indices_length in Ht as (idx & -> & Hidx).
    exists idx. split; [done|].
    rewrite length_fmap, Hidx. by eapply sample_boxes_length.
  - unfold ICDAR2013CharDataset_getitem in Hrun.
    destruct (sample_boxes cfg r None st)
      as [[e|[batch0 chars]] st0] eqn:Hs; [done|].
    simpl in Hrun.
    destruct (string_to_onehot _ _ _ _ _) as [e|t] eqn:Ht; [done|].
    simpl in Hrun. injection Hrun as <- <- <-.
    apply string_to_onehot_indices_length in Ht as (idx & -> & Hidx).
    exists idx. split; [done|].
    rewrite Hidx. by eapply sample_boxes_length.
Qed.

Lemma getitem_matching_leading_dimension_witness :
  ∃ idx, Indices [0] = Indices idx ∧ length [replicate 12 255%Q] = length idx.
Proof.
  apply (getitem_matching_leading_dimension (St:=list nat) plain_config
           white_record [] []).
  right. by vm_compute.
Defined.

(** X15: when every resized crop has its values in [0,255], the
    synthetic-source pipeline returns a batch with every value in [-1,1],
    and the benchmark-source pipeline returns a batch with every value
    still in [0,255]: it hands the crops on as they are. *)
Theorem getitem_pixel_ranges
    {St : Type} `{!RandomState St} {Image : Type} `{!ImageOps Image}
    (cfg : dataset_config) (r : gt_record) (st : St) :
  (∀ BB, Forall in_byte_range
           (resize (cropBB_fast (rec_image r) BB) (cfg_size cfg))) →
  (∀ batch labels st',
     SynthCharDataset_getitem cfg r st = (ok (batch, labels), st') →
     batch_Forall in_unit_range batch) ∧
  (∀ batch labels st',
     ICDAR2013CharDataset_getitem cfg r st = (ok (batch, labels), st') →
     batch_Forall in_byte_range batch).
Proof.
  intros Hcrop. split; intros batch labels st'.
  - unfold SynthCharDataset_getitem.
    destruct (sample_boxes cfg r (rec_wordBBs r) st)
      as [[e|[batch0 chars]] st0] eqn:Hs; [done|].
    simpl. destruct (string_to_onehot _ _ _ _ _) as [e|t]; [done|].
    simpl. intros [= <- <- <-].
    apply (sample_boxes_Forall in_byte_range) in Hs; [|by split|done].
    unfold batch_Forall in *.
    apply Forall_fmap. eapply Forall_impl; [exact Hs|].
    intros img Himg. apply Forall_fmap. eapply Forall_impl; [exact Himg|].
    intros x Hx. by apply scale_pixel_range.
  - unfold ICDAR2013CharDataset_getitem.
    destruct (sample_boxes cfg r None st)
      as [[e|[batch0 chars]] st0] eqn:Hs; [done|].
    simpl. destruct (string_to_onehot _ _ _ _ _) as [e|t]; [done|].
    simpl. intros [= <- <- <-].
    by apply (sample_boxes_Forall in_byte_range) in Hs; [|by split|done].
Qed.

Lemma getitem_pixel_ranges_witness :
  (∀ batch labels st',
     SynthCharDataset_getitem plain_config white_record ([] : list nat)
     = (ok (batch, labels), st') →
     batch_Forall in_unit_range batch) ∧
  (∀ batch labels st',
     ICDAR2013CharDataset_getitem plain_config white_record ([] : list nat)
     = (ok (batch, labels), st') →
     batch_Forall in_byte_range batch).
Proof.
  apply (getitem_pixel_ranges (St:=list nat) plain_config white_record []).
  intros BB. cbv [resize flat_image_ops]. apply Forall_replicate.
  cbv [cropBB_fast crop].
  destruct (head _) as [x|] eqn:Hx; [|by vm_compute].
  apply head_Some_elem_of, elem_of_replicate in Hx as [-> _]. by vm_compute.
Defined.





(** ** genBalancedCharDataset: keys, files, exact counts, reruns *)

Section ExtractionInvariants.
Variables (N_max : nat) (skip_existing imwrite_rejects_empty : bool).

(** The inner loop neither adds nor removes a key. *)
Lemma extract_chars_dom (img_exists : bool) (i : nat) (chars : list ascii) :
  ∀ (k : nat) (d d' : gmap string nat) (fs fs' : gset char_path),
    extract_chars N_max skip_existing imwrite_rejects_empty img_exists i k chars d fs
    = ok (d', fs') →
    ∀ c, is_Some (d' !! c) ↔ is_Some (d !! c).
Proof.
  induction chars as [|ch rest IH]; intros k d d' fs fs' Hrun; simpl in Hrun.
  { by injection Hrun as <- <-. }
  destruct (d !! char_str ch) as [m|] eqn:Hm; [|by eapply IH].
  assert (Hins : ∀ c, is_Some (<[char_str ch := S m]> d !! c) ↔ is_Some (d !! c)).
  { intros c. destruct (decide (char_str ch = c)) as [<-|Hne].
    - rewrite lookup_insert_eq, Hm. by split; eauto.
    - by rewrite lookup_insert_ne. }
  destruct (N_max <=? m); [by eapply IH|].
  destruct_if_in Hrun; [by eapply IH|].
  destruct img_exists.
  { intros c. rewrite <- Hins. by eapply IH. }
  destruct imwrite_rejects_empty; [done|].
  intros c. rewrite <- Hins. by eapply IH.
Qed.

(** Files are only added, and only for occurrences of tracked classes in
    the string at hand. *)
Lemma extract_chars_files (img_exists : bool) (i : nat) (chars : list ascii) :
  ∀ (k : nat) (d d' : gmap string nat) (fs fs' : gset char_path),
    extract_chars N_max skip_existing imwrite_rejects_empty img_exists i k chars d fs
    = ok (d', fs') →
    fs ⊆ fs' ∧
    ∀ p, p ∈ fs' → p ∈ fs ∨ (p ∈ occs_from i k chars ∧ is_Some (d !! p.1.1)).
Proof.
  induction chars as [|ch rest IH]; intros k d d' fs fs' Hrun; simpl in Hrun.
  { injection Hrun as <- <-. split; [done|]. by left. }
  assert (Hsame : extract_chars N_max skip_existing imwrite_rejects_empty
                    img_exists i (S k) rest d fs = ok (d', fs') →
                  fs ⊆ fs' ∧
                  ∀ p, p ∈ fs' →
                       p ∈ fs ∨ (p ∈ occs_from i k (ch :: rest) ∧
                                 is_Some (d !! p.1.1))).
  { intros Hr. apply IH in Hr as [Hsub Hnew]. split; [done|].
    intros p Hp. destruct (Hnew p Hp) as [?|[? ?]]; [by left|right].
    split; [by right|done]. }
  destruct (d !! char_str ch) as [m|] eqn:Hm; [|by apply Hsame].
  destruct (N_max <=? m); [by apply Hsame|].
  destruct_if_in Hrun; [by apply Hsame|].
  assert (Hins : ∀ c, is_Some (<[char_str ch := S m]> d !! c) → is_Some (d !! c)).
  { intros c. destruct (decide (char_str ch = c)) as [<-|Hne].
    - by rewrite Hm; eauto.
    - by rewrite lookup_insert_ne. }
  destruct img_exists.
  - apply IH in Hrun as [Hsub Hnew]. split.
    + intros p Hp. apply Hsub. apply elem_of_union. by right.
    + intros p Hp. destruct (Hnew p Hp) as [Hin|[Hin Hsome]].
      * apply elem_of_union in Hin as [Hin|Hin]; [|by left].
        apply elem_of_singleton in Hin as ->. right. simpl.
        split; [by left|]. rewrite Hm. eauto.
      * right. split; [by right|by apply Hins].
  - destruct imwrite_rejects_empty; [done|].
    apply IH in Hrun as [Hsub Hnew]. split; [done|].
    intros p Hp. destruct (Hnew p Hp) as [?|[? ?]]; [by left|right].
    split; [by right|by apply Hins].
Qed.

(** Every count gained in the inner loop is paid for by an extractable
    occurrence that is no longer ahead. *)
Lemma extract_chars_upper (img_exists : bool) (i : nat) (chars : list ascii) :
  ∀ (k : nat) (d d' : gmap string nat) (fs fs' : gset char_path)
    (later : list char_path),
    extract_chars N_max skip_existing imwrite_rejects_empty img_exists i k chars d fs
    = ok (d', fs') →
    NoDup (occs_from i k chars ++ later) →
    ∀ c n n', d !! c = Some n → d' !! c = Some n' →
      n' + count_extractable skip_existing fs' c later
      ≤ n + count_extractable skip_existing fs c (occs_from i k chars ++ later).
Proof.
  induction chars as [|ch rest IH]; intros k d d' fs fs' later Hrun Hnd;
    simpl in Hrun.
  { injection Hrun as <- <-. intros c n n' Hn Hn'. simpl.
    assert (n' = n) as -> by congruence. done. }
  cbn [occs_from app] in Hnd |- *. apply NoDup_cons in Hnd as [Hfresh Hnd].
  assert (Hsame : extract_chars N_max skip_existing imwrite_rejects_empty
                    img_exists i (S k) rest d fs = ok (d', fs') →
    ∀ c n n', d !! c = Some n → d' !! c = Some n' →
      n' + count_extractable skip_existing fs' c later
      ≤ n + count_extractable skip_existing fs c
              ((char_str ch, i, k) :: occs_from i (S k) rest ++ later)).
  { intros Hr c n n' Hn Hn'.
    pose proof (IH _ _ _ _ _ later Hr Hnd c n n' Hn Hn') as Hle.
    rewrite count_extractable_cons. lia. }
  destruct (d !! char_str ch) as [m|] eqn:Hm; [|by apply Hsame].
  destruct (N_max <=? m); [by apply Hsame|].
  destruct_if_in_eqn Hrun Hskip; [by apply Hsame|].
  (* the counted step *)
  assert (Hcounted : ∀ fs1,
    (fs1 = fs ∨ fs1 = {[(char_str ch, i, k)]} ∪ fs) →
    extract_chars N_max skip_existing imwrite_rejects_empty img_exists i (S k)
      rest (<[char_str ch := S m]> d) fs1 = ok (d', fs') →
    ∀ c n n', d !! c = Some n → d' !! c = Some n' →
      n' + count_extractable skip_existing fs' c later
      ≤ n + count_extractable skip_existing fs c
              ((char_str ch, i, k) :: occs_from i (S k) rest ++ later)).
  { intros fs1 Hfs1 Hr c n n' Hn Hn'.
    rewrite count_extractable_cons.
    assert (Hcnt : count_extractable skip_existing fs1 c
                     (occs_from i (S k) rest ++ later)
                   = count_extractable skip_existing fs c
                       (occs_from i (S k) rest ++ later)).
    { destruct Hfs1 as [->| ->]; [done|]. by apply count_extractable_write. }
    destruct (decide (char_str ch = c)) as [<-|Hne].
    - assert (n = m) as -> by congruence.
      pose proof (IH _ _ _ _ _ later Hr Hnd (char_str ch) (S m) n'
                    (lookup_insert_eq _ _ _) Hn') as Hle.
      rewrite Hcnt in Hle.
      assert (extractable skip_existing fs (char_str ch) (char_str ch, i, k) = true)
        as ->.
      { unfold extractable. simpl. rewrite bool_decide_eq_true_2 by done.
        simpl. by rewrite Hskip. }
      unfold char_path in *. lia.
    - assert (Hn1 : <[char_str ch := S m]> d !! c = Some n)
        by (by rewrite lookup_insert_ne).
      pose proof (IH _ _ _ _ _ later Hr Hnd c n n' Hn1 Hn') as Hle.
      rewrite Hcnt in Hle. unfold char_path in *. lia. }
  destruct img_exists.
  - eapply Hcounted; [|exact Hrun]. by right.
  - destruct imwrite_rejects_empty; [done|].
    eapply Hcounted; [|exact Hrun]. by left.
Qed.

End ExtractionInvariants.

Section ExtractionOuter.
Variables (N_max : nat) (skip_existing imwrite_rejects_empty : bool).

Lemma extract_images_dom (corpus : list gt_entry) (order : list nat) :
  ∀ (d d' : gmap string nat) (fs fs' : gset char_path),
    extract_images N_max skip_existing imwrite_rejects_empty corpus order d fs
    = ok (d', fs') →
    ∀ c, is_Some (d' !! c) ↔ is_Some (d !! c).
Proof.
  induction order as [|i rest IH]; intros d d' fs fs' Hrun; simpl in Hrun.
  { by injection Hrun as <- <-. }
  destruct (dist_min d) as [m|]; [|done].
  destruct (N_max <=? m); [by injection Hrun as <- <-|].
  destruct (corpus !! i) as [e|]; [|done].
  destruct (extract_chars _ _ _ _ _ _ _ _ _) as [err|[d1 fs1]] eqn:Hinner; [done|].
  simpl in Hrun. intros c.
  rewrite (IH _ _ _ _ Hrun c). by eapply extract_chars_dom.
Qed.

Lemma extract_images_files (corpus : list gt_entry) (order : list nat) :
  ∀ (d d' : gmap string nat) (fs fs' : gset char_path),
    extract_images N_max skip_existing imwrite_rejects_empty corpus order d fs
    = ok (d', fs') →
    fs ⊆ fs' ∧
    ∀ p, p ∈ fs' →
         p ∈ fs ∨ (p ∈ order ≫= entry_occurrences corpus ∧ is_Some (d !! p.1.1)).
Proof.
  induction order as [|i rest IH]; intros d d' fs fs' Hrun; simpl in Hrun.
  { injection Hrun as <- <-. split; [done|]. by left. }
  destruct (dist_min d) as [m|]; [|done].
  destruct (N_max <=? m).
  { injection Hrun as <- <-. split; [done|]. by left. }
  destruct (corpus !! i) as [e|] eqn:He; [|done].
  destruct (extract_chars _ _ _ _ _ _ _ _ _) as [err|[d1 fs1]] eqn:Hinner; [done|].
  simpl in Hrun.
  pose proof (extract_chars_dom _ _ _ _ _ _ _ _ _ _ _ Hinner) as Hdom.
  apply extract_chars_files in Hinner as [Hsub1 Hnew1].
  apply IH in Hrun as [Hsub Hnew].
  split; [by etrans|].
  intros p Hp. rewrite bind_cons, elem_of_app.
  destruct (Hnew p Hp) as [Hin|[Hin Hsome]].
  - destruct (Hnew1 p Hin) as [?|[Hocc Hsome]]; [by left|right].
    split; [|done]. left. unfold entry_occurrences.
    by rewrite He, occurrences_of_occs_from.
  - right. split; [by right|]. by apply Hdom.
Qed.

Lemma extract_images_upper (corpus : list gt_entry) (order : list nat) :
  ∀ (d d' : gmap string nat) (fs fs' : gset char_path),
    extract_images N_max skip_existing imwrite_rejects_empty corpus order d fs
    = ok (d', fs') →
    NoDup (order ≫= entry_occurrences corpus) →
    ∀ c n n', d !! c = Some n → d' !! c = Some n' →
      n' ≤ n + count_extractable skip_existing fs c
                 (order ≫= entry_occurrences corpus).
Proof.
  induction order as [|i rest IH]; intros d d' fs fs' Hrun Hnd c n n' Hn Hn';
    simpl in Hrun.
  { injection Hrun as <- <-. assert (n' = n) as -> by congruence. lia. }
  destruct (dist_min d) as [m|]; [|done].
  destruct (N_max <=? m).
  { injection Hrun as <- <-. assert (n' = n) as -> by congruence. lia. }
  destruct (corpus !! i) as [e|] eqn:He; [|done].
  destruct (extract_chars _ _ _ _ _ _ _ _ _) as [err|[d1 fs1]] eqn:Hinner; [done|].
  simpl in Hrun.
  rewrite bind_cons in Hnd |- *.
  unfold entry_occurrences at 1 in Hnd. unfold entry_occurrences at 1.
  rewrite He, occurrences_of_occs_from in Hnd |- *.
  destruct (proj2 (extract_chars_dom _ _ _ _ _ _ _ _ _ _ _ Hinner c)) as [n1 Hn1];
    [by eauto|].
  pose proof (extract_chars_upper _ _ _ _ _ _ _ _ _ _ _ _ Hinner Hnd c n n1 Hn Hn1)
    as Hle1.
  apply NoDup_app in Hnd as (_ & _ & Hnd).
  pose proof (IH _ _ _ _ Hrun Hnd c n1 n' Hn1 Hn') as Hle.
  lia.
Qed.

(** When every target file of a tracked class is already there and
    existing files are skipped, the inner loop changes nothing. *)
Lemma extract_chars_all_skipped (img_exists : bool) (i : nat) (chars : list ascii) :
  skip_existing = true →
  ∀ (k : nat) (d : gmap string nat) (fs : gset char_path),
    (∀ p, p ∈ occs_from i k chars → is_Some (d !! p.1.1) → p ∈ fs) →
    extract_chars N_max skip_existing imwrite_rejects_empty img_exists i k chars d fs
    = ok (d, fs).
Proof.
  intros ->. induction chars as [|ch rest IH]; intros k d fs Hall; [done|].
  cbn [extract_chars]. cbn [occs_from] in Hall.
  assert (Hrest : ∀ p, p ∈ occs_from i (S k) rest → is_Some (d !! p.1.1) → p ∈ fs).
  { intros p Hp. apply Hall. by right. }
  destruct (d !! char_str ch) as [m|] eqn:Hm; [|by apply IH].
  destruct (N_max <=? m); [by apply IH|].
  rewrite bool_decide_eq_true_2; [by apply IH|].
  apply Hall; [by left|]. simpl. rewrite Hm. eauto.
Qed.

Lemma extract_images_all_skipped (corpus : list gt_entry) (order : list nat) :
  skip_existing = true →
  ∀ (d : gmap string nat) (fs : gset char_path),
    Forall (λ i, i < length corpus) order →
    (∀ p, p ∈ order ≫= entry_occurrences corpus → is_Some (d !! p.1.1) → p ∈ fs) →
    (∃ c, is_Some (d !! c)) →
    extract_images N_max skip_existing imwrite_rejects_empty corpus order d fs
    = ok (d, fs).
Proof.
  intros Hskip. induction order as [|i rest IH]; intros d fs Hidx Hall Htracked;
    [done|].
  apply Forall_cons in Hidx as [Hi Hidx]. cbn [extract_images].
  destruct Htracked as [c0 Hc0].
  destruct (dist_min_is_Some d c0 Hc0) as [m ->].
  destruct (N_max <=? m); [done|].
  destruct (lookup_lt_is_Some_2 corpus i Hi) as [e He]. rewrite He.
  rewrite extract_chars_all_skipped; [|done|].
  - simpl. apply IH; [done| |by eauto].
    intros p Hp. apply Hall. rewrite bind_cons. apply elem_of_app. by right.
  - intros p Hp. apply Hall. rewrite bind_cons. apply elem_of_app. left.
    unfold entry_occurrences. by rewrite He, occurrences_of_occs_from.
Qed.

End ExtractionOuter.

Lemma elem_of_order_occurrences (corpus : list gt_entry) (order : list nat)
    (p : char_path) :
  p ∈ order ≫= entry_occurrences corpus → p ∈ corpus_occurrences corpus.
Proof.
  rewrite corpus_occurrences_bind, !list_elem_of_bind.
  intros (i & Hp & _). exists i. split; [done|].
  apply elem_of_seq. split; [lia|]. simpl.
  unfold entry_occurrences in Hp.
  destruct (corpus !! i) as [e|] eqn:He; [|by apply elem_of_nil in Hp].
  by apply lookup_lt_Some in He.
Qed.

(** X18: with the corpus images on disk, the final count of every tracked
    class is the smaller of [N_max] and the number of its extractable
    occurrences in the corpus: a class with too few occurrences ends at
    what the corpus holds, in whatever order the images are drawn. *)
Theorem genBalancedCharDataset_counts (N_max : nat) (corpus : list gt_entry)
    (fs : gset char_path) (skip_existing : bool) (classes : list string)
    (imwrite_rejects_empty : bool) (order : list nat) :
  order ≡ₚ seq 0 (length corpus) →
  Forall (λ e, entry_img_exists e = true) corpus →
  ∃ d fs',
    genBalancedCharDataset N_max corpus fs skip_existing classes
      imwrite_rejects_empty order = ok (d, fs') ∧
    ∀ c, c ∈ tracked_classes classes →
         d !! c = Some (N_max `min` count_extractable skip_existing fs c
                                      (corpus_occurrences corpus)).
Proof.
  intros Hperm Himg. unfold genBalancedCharDataset.
  fold (tracked_classes classes).
  set (d0 := init_distribution (tracked_classes classes)).
  assert (Hinit : ∀ c n, d0 !! c = Some n → n ≤ N_max).
  { intros c n. unfold d0. rewrite init_distribution_lookup.
    case_decide; [|done]. intros [= <-]. lia. }
  assert (Hne : ∃ c, is_Some (d0 !! c)).
  { assert (∃ c, c ∈ tracked_classes classes) as [c Hc].
    { unfold tracked_classes. case_bool_decide as Hcl.
      - exists "A". by left.
      - destruct classes as [|c l]; [done|]. exists c. by left. }
    exists c. unfold d0. rewrite init_distribution_lookup, decide_True by done.
    eauto. }
  assert (Hnd : NoDup (order ≫= entry_occurrences corpus)).
  { apply NoDup_order_occurrences. rewrite Hperm. apply NoDup_seq. }
  destruct (extract_images_progress N_max skip_existing imwrite_rejects_empty
              corpus order Himg d0 fs) as (d & fs' & Hrun & Hfinal);
    [|done|done|].
  { rewrite Hperm. apply Forall_forall. intros i Hi. apply elem_of_seq in Hi. lia. }
  exists d, fs'. split; [done|]. intros c Hc.
  destruct (Hfinal c 0) as (n & Hn & _ & Hmin).
  { unfold d0. by rewrite init_distribution_lookup, decide_True. }
  pose proof (extract_images_bounded _ _ _ _ _ _ _ _ _ Hinit Hrun c n Hn) as Hle.
  assert (Hc0 : d0 !! c = Some 0).
  { unfold d0. by rewrite init_distribution_lookup, decide_True. }
  pose proof (extract_images_upper _ _ _ _ _ _ _ _ _ Hrun Hnd c 0 n Hc0 Hn) as Hup.
  rewrite corpus_occurrences_bind.
  rewrite <- (count_extractable_Permutation _ _ _ _ _
                (bind_Permutation _ _ _ Hperm)).
  rewrite Hn. f_equal. lia.
Qed.

Lemma genBalancedCharDataset_counts_witness :
  ∃ d fs',
    genBalancedCharDataset 3 small_corpus ∅ true ["a"; "x"; "q"] true [1; 0; 2]
    = ok (d, fs') ∧
    ∀ c, c ∈ tracked_classes ["a"; "x"; "q"] →
         d !! c = Some (3 `min` count_extractable true ∅ c
                                  (corpus_occurrences small_corpus)).
Proof.
  apply (genBalancedCharDataset_counts 3 small_corpus ∅ true ["a"; "x"; "q"] true
           [1; 0; 2]).
  - apply perm_swap.
  - repeat constructor.
Defined.

(** X19: whenever the extraction returns, the keys of the final
    distribution are exactly the tracked classes: a character outside them
    is never counted, and no tracked class is dropped. *)
Theorem genBalancedCharDataset_keys (N_max : nat) (corpus : list gt_entry)
    (fs fs' : gset char_path) (skip_existing : bool) (classes : list string)
    (imwrite_rejects_empty : bool) (order : list nat) (d : gmap string nat) :
  genBalancedCharDataset N_max corpus fs skip_existing classes
    imwrite_rejects_empty order = ok (d, fs') →
  ∀ c, is_Some (d !! c) ↔ c ∈ tracked_classes classes.
Proof.
  unfold genBalancedCharDataset. fold (tracked_classes classes).
  intros Hrun c. rewrite (extract_images_dom _ _ _ _ _ _ _ _ _ Hrun c).
  rewrite init_distribution_lookup.
  case_decide; split; try done; (by eauto) || (by intros [? [=]]).
Qed.

Lemma genBalancedCharDataset_keys_witness :
  is_Some
    (match genBalancedCharDataset 2 small_corpus ∅ true ["a"; "b"] true
             [1; 0; 2] with
     | inr (d, _) => d
     | inl _ => ∅
     end !! "x") ↔ "x" ∈ tracked_classes ["a"; "b"].
Proof.
  eapply (genBalancedCharDataset_keys 2 small_corpus ∅ _ true ["a"; "b"] true
            [1; 0; 2]).
  vm_compute. reflexivity.
Defined.

(** X20: the extraction never removes a file, and every file it adds is
    the target of a character occurrence of the corpus whose class is
    tracked. *)
Theorem genBalancedCharDataset_files (N_max : nat) (corpus : list gt_entry)
    (fs fs' : gset char_path) (skip_existing : bool) (classes : list string)
    (imwrite_rejects_empty : bool) (order : list nat) (d : gmap string nat) :
  genBalancedCharDataset N_max corpus fs skip_existing classes
    imwrite_rejects_empty order = ok (d, fs') →
  fs ⊆ fs' ∧
  ∀ p, p ∈ fs' → p ∉ fs →
       p ∈ corpus_occurrences corpus ∧ p.1.1 ∈ tracked_classes classes.
Proof.
  unfold genBalancedCharDataset. fold (tracked_classes classes).
  intros Hrun. apply extract_images_files in Hrun as [Hsub Hnew].
  split; [done|]. intros p Hp Hold.
  destruct (Hnew p Hp) as [?|[Hocc Hsome]]; [done|].
  split; [by eapply elem_of_order_occurrences|].
  rewrite init_distribution_lookup in Hsome.
  case_decide; [done|]. by destruct Hsome as [? [=]].
Qed.

Lemma genBalancedCharDataset_files_witness :
  let fs' := match genBalancedCharDataset 2 small_corpus ∅ true ["a"; "b"] true
                     [1; 0; 2] with
             | inr (_, fs') => fs'
             | inl _ => ∅
             end in
  (∅ : gset char_path) ⊆ fs' ∧
  ∀ p, p ∈ fs' → p ∉ (∅ : gset char_path) →
       p ∈ corpus_occurrences small_corpus ∧ p.1.1 ∈ tracked_classes ["a"; "b"].
Proof.
  eapply (genBalancedCharDataset_files 2 small_corpus ∅ _ true ["a"; "b"] true
            [1; 0; 2]).
  vm_compute. reflexivity.
Defined.

(** X21: counts are not initialised from files already on disk.  With
    [skip_existing] on and the target file of every tracked occurrence
    already there, the extraction writes nothing and returns every count
    at zero. *)
Theorem genBalancedCharDataset_rerun (N_max : nat) (corpus : list gt_entry)
    (fs : gset char_path) (classes : list string)
    (imwrite_rejects_empty : bool) (order : list nat) :
  Forall (λ i, i < length corpus) order →
  (∀ p, p ∈ corpus_occurrences corpus → p.1.1 ∈ tracked_classes classes →
        p ∈ fs) →
  genBalancedCharDataset N_max corpus fs true classes imwrite_rejects_empty order
  = ok (init_distribution (tracked_classes classes), fs).
Proof.
  intros Hidx Hall. unfold genBalancedCharDataset.
  fold (tracked_classes classes).
  apply extract_images_all_skipped; [done|done| |].
  - intros p Hp Hsome. apply Hall; [by eapply elem_of_order_occurrences|].
    rewrite init_distribution_lookup in Hsome.
    case_decide; [done|]. by destruct Hsome as [? [=]].
  - assert (∃ c, c ∈ tracked_classes classes) as [c Hc].
    { unfold tracked_classes. case_bool_decide as Hcl.
      - exists "A". by left.
      - destruct classes as [|c l]; [done|]. exists c. by left. }
    exists c. rewrite init_distribution_lookup, decide_True by done. eauto.
Qed.

Lemma genBalancedCharDataset_rerun_witness :
  genBalancedCharDataset 2 small_corpus
    {[("a", 0, 0); ("a", 1, 2); ("a", 2, 0)]} true ["a"] true [1; 0; 2]
  = ok (init_distribution (tracked_classes ["a"]),
        {[("a", 0, 0); ("a", 1, 2); ("a", 2, 0)]}).
Proof.
  apply (genBalancedCharDataset_rerun 2 small_corpus
           {[("a", 0, 0); ("a", 1, 2); ("a", 2, 0)]} ["a"] true [1; 0; 2]).
  - repeat constructor; simpl; lia.
  - intros p Hp Hc. apply list_elem_of_singleton in Hc.
    vm_compute in Hp.
    repeat (apply elem_of_cons in Hp as [->|Hp]; [try done;
      apply (bool_decide_unpack _); by vm_compute|]).
    by apply elem_of_nil in Hp.
Defined.

(** ** cropBB on filtered boxes *)

(** X22: for every box that [filter_BBs] retains, the fast crop asks
    [image_proc.crop] for a window at the box's top-left corner that is at
    least 2 x 2 after rounding up, and that runs past the image's right
    and bottom edge by less than one pixel. *)
Theorem cropBB_fast_window {Image : Type} `{!ImageOps Image}
    (img : Image) (img_w img_h : Q) (BB : Quad) :
  keep_BB img_w img_h BB = true →
  let '(i, j, h, w) := crop_window BB in
  cropBB_fast img BB = crop img i j (inject_Z h) (inject_Z w) ∧
  (2 <= h)%Z ∧ (2 <= w)%Z ∧
  (j + inject_Z w < img_w + 1)%Q ∧ (i + inject_Z h < img_h + 1)%Q.
Proof.
  rewrite keep_BB_iff. unfold rect_br, rect_wh, get_containing_rect, crop_window.
  simpl. intros (Hx & Hy & Hw & Hh).
  split; [reflexivity|].
  set (ex := (max4 (q0 BB).1 (q1 BB).1 (q2 BB).1 (q3 BB).1
              - min4 (q0 BB).1 (q1 BB).1 (q2 BB).1 (q3 BB).1)%Q) in *.
  set (ey := (max4 (q0 BB).2 (q1 BB).2 (q2 BB).2 (q3 BB).2
              - min4 (q0 BB).2 (q1 BB).2 (q2 BB).2 (q3 BB).2)%Q) in *.
  pose proof (Qle_ceiling ex) as Hcx. pose proof (Qle_ceiling ey) as Hcy.
  pose proof (Qceiling_lt ex) as Hlx. pose proof (Qceiling_lt ey) as Hly.
  unfold Z.sub in Hlx, Hly. rewrite inject_Z_plus, inject_Z_opp in Hlx, Hly.
  change (inject_Z 1) with 1%Q in Hlx, Hly.
  assert (H1x : (1 < Qceiling ex)%Z).
  { rewrite Zlt_Qlt. change (inject_Z 1) with 1%Q. lra. }
  assert (H1y : (1 < Qceiling ey)%Z).
  { rewrite Zlt_Qlt. change (inject_Z 1) with 1%Q. lra. }
  repeat split; try lia; unfold ex, ey in *; lra.
Qed.

Lemma cropBB_fast_window_witness :
  let '(i, j, h, w) := crop_window inner_box in
  cropBB_fast {| flat_w := 10; flat_h := 10; flat_value := 7 |} inner_box
  = crop {| flat_w := 10; flat_h := 10; flat_value := 7 |} i j
      (inject_Z h) (inject_Z w) ∧
  (2 <= h)%Z ∧ (2 <= w)%Z ∧
  (j + inject_Z w < 10 + 1)%Q ∧ (i + inject_Z h < 10 + 1)%Q.
Proof.
  apply (cropBB_fast_window {| flat_w := 10; flat_h := 10; flat_value := 7 |}
           10 10 inner_box).
  by vm_compute.
Defined.

(** ** ICDAR2013Dataset: which annotation rows survive the filter *)







(** ** CharClassifier: which input shapes the forward pass accepts *)

Lemma conv_side_Some (s v : nat) :
  conv_side 3 s = Some v ↔ 3 ≤ s ∧ v = s - 2.
Proof.
  unfold conv_side. destruct (3 <=? s) eqn:H.
  - apply Nat.leb_le in H. split.
    + intros Heq. assert (v = s - 3 + 1) by congruence. lia.
    + intros [_ ->]. f_equal. lia.
  - apply Nat.leb_gt in H. split; [done|lia].
Qed.

Lemma pool_side_Some (s v : nat) :
  pool_side 2 s = Some v ↔ 1 ≤ v ∧ 2 * v ≤ s ∧ s ≤ 2 * v + 1.
Proof.
  unfold pool_side.
  pose proof (Nat.div_mod_eq s 2) as Hdm.
  pose proof (Nat.mod_upper_bound s 2 ltac:(lia)) as Hm.
  destruct (0 <? s / 2) eqn:H.
  - apply Nat.ltb_lt in H. split.
    + intros Heq. assert (v = s / 2) by congruence. lia.
    + intros (? & ? & ?). f_equal. lia.
  - apply Nat.ltb_ge in H. split; [done|lia].
Qed.

Lemma forward_side_Some (s v : nat) :
  forward_side s = Some v ↔ 1 ≤ v ∧ 8 * v + 42 ≤ s ∧ s ≤ 8 * v + 49.
Proof.
  unfold forward_side. split.
  - intros H.
    repeat match type of H with
    | _ ≫= _ = Some _ =>
        apply bind_Some in H as (? & ?%conv_side_Some & H)
        || apply bind_Some in H as (? & ?%pool_side_Some & H)
    end.
    apply conv_side_Some in H. lia.
  - intros (Hv & Hlo & Hhi).
    assert (Hpool : ∀ x, 2 ≤ x → pool_side 2 x = Some (x / 2)).
    { intros x Hx. apply pool_side_Some.
      pose proof (Nat.div_mod_eq x 2). pose proof (Nat.mod_upper_bound x 2). lia. }
    assert (Hconv : ∀ x, 3 ≤ x → conv_side 3 x = Some (x - 2)).
    { intros x Hx. by apply conv_side_Some. }
    pose proof (Nat.div_mod_eq (s - 2) 2) as D1.
    pose proof (Nat.mod_upper_bound (s - 2) 2 ltac:(lia)) as M1.
    set (a := (s - 2) / 2) in *.
    pose proof (Nat.div_mod_eq (a - 2 - 2) 2) as D2.
    pose proof (Nat.mod_upper_bound (a - 2 - 2) 2 ltac:(lia)) as M2.
    set (b := (a - 2 - 2) / 2) in *.
    pose proof (Nat.div_mod_eq (b - 2 - 2) 2) as D3.
    pose proof (Nat.mod_upper_bound (b - 2 - 2) 2 ltac:(lia)) as M3.
    set (c := (b - 2 - 2) / 2) in *.
    rewrite Hconv by lia. cbn [mbind option_bind].
    rewrite Hpool by lia. cbn [mbind option_bind]. fold a.
    rewrite Hconv by lia. cbn [mbind option_bind].
    rewrite Hconv by lia. cbn [mbind option_bind].
    rewrite Hpool by lia. cbn [mbind option_bind]. fold b.
    rewrite Hconv by lia. cbn [mbind option_bind].
    rewrite Hconv by lia. cbn [mbind option_bind].
    rewrite Hpool by lia. cbn [mbind option_bind]. fold c.
    rewrite Hconv by lia. f_equal. lia.
Qed.

Lemma conv2d_shape_sides (cin cout : nat) (n c h w : nat) :
  conv2d_shape cin cout 3 (n, c, h, w)
  = if bool_decide (c = cin)
    then match conv_side 3 h, conv_side 3 w with
         | Some h', Some w' => Some (n, cout, h', w')
         | _, _ => None
         end
    else None.
Proof.
  unfold conv2d_shape. case_bool_decide; [|done].
  by destruct (conv_side 3 h), (conv_side 3 w).
Qed.

Lemma max_pool2d_shape_sides (n c h w : nat) :
  max_pool2d_shape 2 (n, c, h, w)
  = match pool_side 2 h, pool_side 2 w with
    | Some h', Some w' => Some (n, c, h', w')
    | _, _ => None
    end.
Proof.
  unfold max_pool2d_shape. by destruct (pool_side 2 h), (pool_side 2 w).
Qed.

(** The forward pass works side by side; only the flattening ties the
    two sides together. *)
Lemma forward_shape_sides (num_classes n c h w : nat) :
  forward_shape num_classes (n, c, h, w)
  = if bool_decide (c = 3)
    then match forward_side h, forward_side w with
         | Some a, Some b =>
             if bool_decide (256 * a * b = 256 * 2 * 2)
             then Some (n, num_classes) else None
         | _, _ => None
         end
    else None.
Proof.
  unfold forward_shape, forward_side.
  rewrite conv2d_shape_sides.
  case_bool_decide as Hc; [|done].
  destruct (conv_side 3 h) as [?|] eqn:?; [|by repeat case_match].
  destruct (conv_side 3 w) as [?|] eqn:?;
    [|cbn [mbind option_bind]; by repeat case_match].
  do 8 (shape_stage conv2d_shape_sides max_pool2d_shape_sides).
  cbn [mbind option_bind]. unfold linear_shape.
  case_bool_decide; [|done]. cbn [mbind option_bind].
  by rewrite bool_decide_eq_true_2.
Qed.

(** X24: the forward pass of [CharClassifier] accepts a batch exactly
    when it has 3 channels and its two spatial sides shrink to a map of 4
    cells, which [fc1]'s hard-coded [256 * 2 * 2] inputs require: both
    sides between 58 and 65 (the training size, 64, among them), or one
    between 50 and 57 and the other between 74 and 81.  The result then has
    one row of [num_classes] scores per input image. *)
Theorem CharClassifier_forward_shape (num_classes n c h w : nat) (out : nat * nat) :
  forward_shape num_classes (n, c, h, w) = Some out ↔
  out = (n, num_classes) ∧ c = 3 ∧
  ((58 ≤ h ≤ 65 ∧ 58 ≤ w ≤ 65) ∨
   (50 ≤ h ≤ 57 ∧ 74 ≤ w ≤ 81) ∨
   (74 ≤ h ≤ 81 ∧ 50 ≤ w ≤ 57)).
Proof.
  rewrite forward_shape_sides.
  case_bool_decide as Hc; [|split; [done|by intros (_ & ? & _)]].
  destruct (forward_side h) as [a|] eqn:Ha.
  2: { split; [done|]. intros (_ & _ & Hr).
       assert (∃ v, forward_side h = Some v) as [v Hv]; [|congruence].
       destruct Hr as [[? ?]|[[? ?]|[? ?]]];
         [exists 2|exists 1|exists 4]; apply forward_side_Some; lia. }
  destruct (forward_side w) as [b|] eqn:Hb.
  2: { split; [done|]. intros (_ & _ & Hr).
       assert (∃ v, forward_side w = Some v) as [v Hv]; [|congruence].
       destruct Hr as [[? ?]|[[? ?]|[? ?]]];
         [exists 2|exists 4|exists 1]; apply forward_side_Some; lia. }
  apply forward_side_Some in Ha, Hb.
  case_bool_decide as Hab.
  - split.
    + intros [= <-]. split; [done|]. split; [done|].
      assert (a * b = 4) as Hp by lia.
      assert (a ≤ 4) by nia.
      assert (a = 1 ∧ b = 4 ∨ a = 2 ∧ b = 2 ∨ a = 4 ∧ b = 1) by nia.
      lia.
    + by intros (-> & _).
  - split; [done|]. intros (_ & _ & Hr). exfalso. apply Hab.
    assert (a = 1 ∧ b = 4 ∨ a = 2 ∧ b = 2 ∨ a = 4 ∧ b = 1) as Hcases by lia.
    destruct Hcases as [[-> ->]|[[-> ->]|[-> ->]]]; done.
Qed.
